(** * The spatial label field store of MacroImmunet_demo

    A shallow embedding of
    - [label_center/label_center_base.py] (class [LabelCenterBase]: the
      decaying, ownership-arbitrated field store),
    - [label_center/label_center.py] (class [LabelCenter]: the queued,
      tick-applied store),
    - [scan_master/decayer.py] ([Decayer._decay_mass]),
    and the properties of these that the specification states.

    Conventions.  Python [int] is [Z].  Python [float] is idealised: the
    field store only multiplies, adds, compares and raises to an integer
    power, so its values are exact rationals [Q]; the half-life decay of
    the decayer raises [0.5] to a real exponent, so it lives in [R].
    A Python dict is a [gmap].  A method that can raise returns a
    [result].

    Intents.  An intent and its payload are dicts with optional keys; each
    key is an [option], and [None] is an absent key.  A key bound to
    Python's [None] is not a value of these types.  Where the code reads a
    key with [dict.get] and no default ([name] in both classes, [coord] and
    [label] in [LabelCenterBase]) it cannot tell the two apart, so what is
    proved there of an absent key is true of one bound to [None] as well.
    Elsewhere it is not, and no statement below speaks of these shapes: a
    [payload] bound to [None] (on an emit intent both classes raise,
    [_consume_intent] with [AttributeError]), an [amount] bound to [None],
    and, in [LabelCenter], which indexes [payload["coord"]] and
    [payload["label"]], a [coord] bound to [None] ([tuple(None)] raises
    [TypeError]) or a [label] bound to [None] ([None] becomes a key of the
    field). *)

From Stdlib Require Import ZArith QArith Qpower Reals Qreals Lra Lia.
From stdpp Require Import gmap strings list fin_maps.

(** ** Python values used by the store *)

(** Coordinates are hashable pairs; every caller passes integer pairs. *)
Definition Coord : Type := (Z * Z)%type.

(** Claimants ([by]) are owner-id strings. *)
Definition OwnerId : Type := string.

Inductive exn : Type :=
| KeyError
| ValueError
| AttributeError.

Inductive result (A : Type) : Type :=
| Ok (a : A)
| Raise (e : exn).
Arguments Ok {A} a.
Arguments Raise {A} e.

(** [x < y] on floats, as a boolean. *)
Definition Qltb (x y : Q) : bool := negb (Qle_bool y x).

(** One entry of [label_field[coord]]: the dict
    [{"value", "last_tick", "owned_by", "cooldown_until"}].  The two last
    keys are absent until a claim or a release writes them; [dict.get]
    reads an absent key as [None]. *)
Record entry : Type := Entry {
  value : Q;
  last_tick : Z;
  owned_by : option OwnerId;
  cooldown_until : option Z
}.

(** The payload of an intent; every key may be absent ([None]). *)
Record payload : Type := Payload {
  pl_coord : option Coord;
  pl_label : option string;
  pl_amount : option Q
}.

(** [intent.get("payload", {})] of an intent without the key [payload]. *)
Definition empty_payload : payload := Payload None None None.

(** An intent; [intent_payload = None] is an intent without the key
    [payload]. *)
Record intent : Type := Intent {
  name : option string;
  intent_payload : option payload
}.

(** The usual well-formed write intent. *)
Definition emit_label (c : Coord) (l : string) (a : Q) : intent :=
  Intent (Some "emit_label"%string) (Some (Payload (Some c) (Some l) (Some a))).

(** ** LabelCenterBase *)

Record LabelCenterBase : Type := mkBase {
  decay_rate : Q;
  claim_cooldown : Z;
  prune_threshold : Q;
  current_tick : Z;
  (* coord -> label -> entry; [self.field] is an alias of the same dict *)
  label_field : gmap Coord (gmap string entry)
}.

(** [LabelCenterBase.__init__] *)
Definition init (rate : Q) (cooldown : Z) (threshold : Q) : LabelCenterBase :=
  mkBase rate cooldown threshold 0%Z ∅.

(** [LabelCenterBase()] with the default arguments. *)
Definition init_default : LabelCenterBase := init (9 # 10) 0 0.

Definition set_label_field (st : LabelCenterBase)
    (f : gmap Coord (gmap string entry)) : LabelCenterBase :=
  mkBase (decay_rate st) (claim_cooldown st) (prune_threshold st)
         (current_tick st) f.

Definition set_current_tick (st : LabelCenterBase) (t : Z) : LabelCenterBase :=
  mkBase (decay_rate st) (claim_cooldown st) (prune_threshold st)
         t (label_field st).

(** [self.label_field.get(coord, {}).get(label)] *)
Definition lookup_entry (st : LabelCenterBase) (c : Coord) (l : string)
    : option entry :=
  default ∅ (label_field st !! c) !! l.

(** [self.label_field[coord][label] = e].  [label_field] is a
    [defaultdict]: indexing a missing coordinate first binds it to [{}]. *)
Definition store_entry (st : LabelCenterBase) (c : Coord) (l : string)
    (e : entry) : LabelCenterBase :=
  set_label_field st
    (<[c := <[l := e]> (default ∅ (label_field st !! c))]> (label_field st)).

(** [LabelCenterBase._decay] *)
Definition _decay (st : LabelCenterBase) (v : Q) (last : Z) : Q :=
  let dt := (current_tick st - last)%Z in
  if (dt <=? 0)%Z then v
  else if Qle_bool (decay_rate st) 0 then v
  else (v * decay_rate st ^ dt)%Q.

(** [LabelCenterBase._consume_intent].  The three reads are
    [intent.get("payload", {})], [payload.get("coord")] and
    [payload.get("label")]: an absent [payload] is the empty dict, and an
    absent [coord] or [label] (or one bound to [None]) ends the call. *)
Definition _consume_intent (st : LabelCenterBase) (i : intent)
    : LabelCenterBase :=
  if bool_decide (name i = Some "emit_label"%string) then
    let p := default empty_payload (intent_payload i) in
    let amount := default 0%Q (pl_amount p) in
    match pl_coord p, pl_label p with
    | Some c, Some l =>
        match lookup_entry st c l with
        | Some e =>
            match owned_by e with
            | Some _ => st
            | None =>
                let decayed := _decay st (value e) (last_tick e) in
                store_entry st c l
                  (Entry (decayed + amount)%Q (current_tick st)
                         (owned_by e) (cooldown_until e))
            end
        | None =>
            store_entry st c l (Entry amount (current_tick st) None None)
        end
    | _, _ => st
    end
  else st.

(** [LabelCenterBase.consume_intents] *)
Definition consume_intents (st : LabelCenterBase) (intents : list intent)
    : LabelCenterBase :=
  foldl _consume_intent st intents.

(** [LabelCenterBase.advance_tick] *)
Definition advance_tick (st : LabelCenterBase) (t : Z) : LabelCenterBase :=
  if (t <? current_tick st)%Z then st else set_current_tick st t.

(** [LabelCenterBase.tick] *)
Definition tick (st : LabelCenterBase) (step : Z) : LabelCenterBase :=
  set_current_tick st (current_tick st + step)%Z.

(** [LabelCenterBase.get_label] *)
Definition get_label (st : LabelCenterBase) (c : Coord) (l : string) : Q :=
  match lookup_entry st c l with
  | None => 0%Q
  | Some e =>
      match owned_by e with
      | Some _ => value e
      | None =>
          let v := _decay st (value e) (last_tick e) in
          if Qltb v (prune_threshold st) then 0%Q else v
      end
  end.

(** [LabelCenterBase.release_label] *)
Definition release_label (st : LabelCenterBase) (c : Coord) (l : string)
    (by_ : OwnerId) : result LabelCenterBase :=
  match lookup_entry st c l with
  | None => Raise KeyError
  | Some e =>
      if bool_decide (owned_by e = Some by_) then
        Ok (store_entry st c l
              (Entry (value e) (last_tick e) None
                     (Some (current_tick st + claim_cooldown st)%Z)))
      else Raise ValueError
  end.

(** [LabelCenterBase.create_label]: [self.labels] is no attribute of the
    class, so [len(self.labels)] raises before anything is written. *)
Definition create_label (st : LabelCenterBase) (c : Coord) (mass : Q)
    (label_type : string) : result (string * LabelCenterBase) :=
  Raise AttributeError.

(** [LabelCenterBase.claim_label] *)
Definition claim_label (st : LabelCenterBase) (c : Coord) (l : string)
    (by_ : OwnerId) : result (bool * LabelCenterBase) :=
  match lookup_entry st c l with
  | None => Raise KeyError
  | Some e =>
      match owned_by e with
      | Some _ => Ok (false, st)
      | None =>
          match cooldown_until e with
          | Some u =>
              if (current_tick st <? u)%Z then Ok (false, st)
              else Ok (true, store_entry st c l
                               (Entry (value e) (last_tick e) (Some by_)
                                      (cooldown_until e)))
          | None =>
              Ok (true, store_entry st c l
                          (Entry (value e) (last_tick e) (Some by_)
                                 (cooldown_until e)))
          end
      end
  end.

(** [LabelCenterBase.prune] (the second definition, which is the one the
    class ends up with) on one entry: [None] when the entry is deleted. *)
Definition prune_entry (st : LabelCenterBase) (e : entry) : option entry :=
  match owned_by e with
  | Some _ => Some e
  | None =>
      let decayed_value := _decay st (value e) (last_tick e) in
      if Qltb decayed_value (prune_threshold st) then None
      else Some (Entry decayed_value (current_tick st)
                       (owned_by e) (cooldown_until e))
  end.

(** The inner loop over one coordinate, then [if not labels: del]. *)
Definition prune_bucket (st : LabelCenterBase) (labels : gmap string entry)
    : option (gmap string entry) :=
  let labels' := omap (prune_entry st) labels in
  if bool_decide (labels' = ∅) then None else Some labels'.

Definition prune (st : LabelCenterBase) : LabelCenterBase :=
  set_label_field st (omap (prune_bucket st) (label_field st)).

(** The first [prune] of the class body, which the second definition
    replaces: it checks the decayed value but writes nothing back. *)
Definition prune_entry_shadowed (st : LabelCenterBase) (e : entry)
    : option entry :=
  match owned_by e with
  | Some _ => Some e
  | None =>
      if Qltb (_decay st (value e) (last_tick e)) (prune_threshold st)
      then None else Some e
  end.

Definition prune_shadowed (st : LabelCenterBase) : LabelCenterBase :=
  set_label_field st
    (omap (fun labels : gmap string entry =>
             let labels' := omap (prune_entry_shadowed st) labels in
             if bool_decide (labels' = ∅) then None else Some labels')
          (label_field st)).

(** *** The operations of the store as data *)

Inductive op : Type :=
| Consume (intents : list intent)
| AdvanceTick (t : Z)
| Tick (step : Z)
| GetLabel (c : Coord) (l : string)
| Release (c : Coord) (l : string) (by_ : OwnerId)
| Create (c : Coord) (mass : Q) (label_type : string)
| Claim (c : Coord) (l : string) (by_ : OwnerId)
| Prune.

(** The store after one call; a call that raises leaves the store as it
    was, since every [raise] of the class precedes its writes. *)
Definition exec (st : LabelCenterBase) (o : op) : LabelCenterBase :=
  match o with
  | Consume intents => consume_intents st intents
  | AdvanceTick t => advance_tick st t
  | Tick step => tick st step
  | GetLabel _ _ => st
  | Release c l by_ =>
      match release_label st c l by_ with Ok st' => st' | Raise _ => st end
  | Create c mass label_type =>
      match create_label st c mass label_type with
      | Ok (_, st') => st'
      | Raise _ => st
      end
  | Claim c l by_ =>
      match claim_label st c l by_ with Ok (_, st') => st' | Raise _ => st end
  | Prune => prune st
  end.

Definition run (st : LabelCenterBase) (ops : list op) : LabelCenterBase :=
  foldl exec st ops.

(** ** LabelCenter: the queued store *)

(** One element of [intent_queue]. *)
Record batch : Type := Batch {
  intents : list intent;
  source : option string;
  batch_tick : option Z
}.

(** [summary[coord] = {"labels": dict(labels)}] *)
Record cell_summary : Type := CellSummary {
  labels : gmap string Q
}.

(** [self.events] is never read or written by a method and is left out. *)
Record LabelCenter : Type := mkCenter {
  intent_queue : list batch;
  field : gmap Coord (gmap string Q);
  _grid_summary_cache : option (gmap Coord cell_summary)
}.

(** [LabelCenter.__init__] *)
Definition new_center : LabelCenter := mkCenter [] ∅ None.

(** [LabelCenter.enqueue_intents] *)
Definition enqueue_intents (lc : LabelCenter) (batch_intents : list intent)
    (src : option string) (t : option Z) : LabelCenter :=
  match batch_intents with
  | [] => lc
  | _ :: _ =>
      mkCenter (intent_queue lc ++ [Batch batch_intents src t])
               (field lc) (_grid_summary_cache lc)
  end.

(** [LabelCenter._apply_intent].  [payload["coord"]] and [payload["label"]]
    raise [KeyError] on an absent key, before the field is written; an
    absent [amount] is [1.0]. *)
Definition _apply_intent (lc : LabelCenter) (i : intent) : result LabelCenter :=
  let p := default empty_payload (intent_payload i) in
  if bool_decide (name i = Some "emit_label"%string) then
    match pl_coord p with
    | None => Raise KeyError
    | Some c =>
        match pl_label p with
        | None => Raise KeyError
        | Some l =>
            let amount := default 1%Q (pl_amount p) in
            let cell := default ∅ (field lc !! c) in
            Ok (mkCenter (intent_queue lc)
                  (<[c := <[l := (default 0%Q (cell !! l) + amount)%Q]> cell]>
                     (field lc))
                  (_grid_summary_cache lc))
        end
    end
  else Ok lc.

(** The two nested loops of [apply_tick] over the flattened queue: the
    store reached, and the exception that stopped the loops if one did. *)
Fixpoint apply_intents (lc : LabelCenter) (l : list intent)
    : LabelCenter * option exn :=
  match l with
  | [] => (lc, None)
  | i :: l' =>
      match _apply_intent lc i with
      | Ok lc' => apply_intents lc' l'
      | Raise e => (lc, Some e)
      end
  end.

Definition queued_intents (lc : LabelCenter) : list intent :=
  concat (map intents (intent_queue lc)).

(** [LabelCenter.apply_tick]; the [tick] argument is not used by the body. *)
Definition apply_tick (lc : LabelCenter) (t : option Z)
    : LabelCenter * option exn :=
  match apply_intents lc (queued_intents lc) with
  | (lc', None) => (mkCenter [] (field lc') None, None)
  | (lc', Some e) => (lc', Some e)
  end.

(** [LabelCenter.get_grid_summary]: the summary and the store with its cache. *)
Definition get_grid_summary (lc : LabelCenter)
    : gmap Coord cell_summary * LabelCenter :=
  match _grid_summary_cache lc with
  | Some s => (s, lc)
  | None =>
      let summary := CellSummary <$> field lc in
      (summary, mkCenter (intent_queue lc) (field lc) (Some summary))
  end.

(** ** Decayer *)

Inductive float_result : Type :=
| FloatOk (x : R)
| ZeroDivisionError.

(** [Decayer._decay_mass], with [self.min_half_life] as first argument. *)
Definition _decay_mass (min_half_life mass dt half_life : R) : float_result :=
  if Rle_dec dt 0 then FloatOk mass
  else
    let half_life' :=
      if Rlt_dec half_life min_half_life then min_half_life else half_life in
    if Req_dec_T half_life' 0 then ZeroDivisionError
    else FloatOk (mass * Rpower (1 / 2) (dt / half_life'))%R.

(** [Decayer.__init__]'s default [min_half_life = 1e-6]. *)
Definition default_min_half_life : R := (1 / 1000000)%R.

(** ** Label (label_center/label.py) *)

(** What a method of the decay code raises. *)
Inductive decay_exn : Type :=
| DecayValueError
| DecayZeroDivisionError.

Inductive outcome (A : Type) : Type :=
| Returns (a : A)
| Raises (e : decay_exn).
Arguments Returns {A} a.
Arguments Raises {A} e.

Record Label : Type := mkLabel {
  label_id : string;
  label_mass : R;
  label_half_life : option R;
  label_owned_by : option string;
  label_age : R
}.

(** [Label.__init__] with [mass=1.0], [half_life=None]. *)
Definition new_Label (id : string) (m : R) (hl : option R) : Label :=
  mkLabel id m hl None 0%R.

(** [Label.decay]: no clamp on [dt], no look at [owned_by]; the division
    raises on a half-life of zero. *)
Definition Label_decay (lb : Label) (dt : R) : outcome Label :=
  match label_half_life lb with
  | None => Returns lb
  | Some hl =>
      if Req_dec_T hl 0 then Raises DecayZeroDivisionError
      else
        let decay_factor := Rpower (1 / 2) (dt / hl) in
        Returns (mkLabel (label_id lb) (label_mass lb * decay_factor)%R
                   (label_half_life lb) (label_owned_by lb) (label_age lb))
  end.

(** ** Decayer (scan_master/decayer.py), the rest of the class *)

Global Instance Rlt_decision (x y : R) : Decision (x < y)%R := Rlt_dec x y.
Global Instance Rle_decision (x y : R) : Decision (x <= y)%R := Rle_dec x y.

(** A label as a region of [Space] holds it: [Space.add_label] and
    [Space.replace_labels] pass every label through
    [_assign_id_if_missing], so [id], [mass], [created_tick], [meta] and
    [owner] are present.  Of [meta] the decayer reads [half_life] only. *)
Record RawLabel : Type := mkRawLabel {
  lab_id : string;
  lab_name : option string;
  lab_label : option string;
  lab_type : option string;
  lab_mass : R;
  lab_created_tick : Z;
  lab_coord : option Coord;
  lab_owner : option string;
  lab_meta_half_life : option R
}.

(** [x or ...] on an optional string: [None] and [""] are falsy. *)
Definition truthy (s : option string) : option string :=
  match s with
  | Some EmptyString => None
  | _ => s
  end.

(** The name [classify_label_item] classifies a label dict by:
    [original.get('name') or original.get('label') or original.get('type')
    or ''] *)
Definition classified_name (lab : RawLabel) : string :=
  match truthy (lab_name lab) with
  | Some n => n
  | None =>
      match truthy (lab_label lab) with
      | Some n => n
      | None => default EmptyString (truthy (lab_type lab))
      end
  end.

(** What the decayer takes from outside its file: Python's [str.upper],
    the half-life column of [label_names.LABEL_REGISTRY] (for each registry
    key, [meta.get("half_life") or meta.get("default_half_life")] when that
    is not [None]), and the canonical name [classify_label_item] derives
    from the name of a label (registry hit or keyword heuristics). *)
Record Host : Type := mkHost {
  str_upper : string → string;
  LABEL_REGISTRY : gmap string R;
  classify_canonical : string → string
}.

Record Decayer : Type := mkDecayer {
  removal_threshold : R;
  min_half_life : R;
  global_default_half_life : option R;
  half_life_map : gmap string R
}.

(** [Decayer.__init__]: the map is seeded with the positive half-lives
    of the registry, under the registry's own keys. *)
Definition Decayer_init (H : Host) (threshold min_hl : R)
    (global_default : option R) : Decayer :=
  mkDecayer threshold min_hl global_default
    (filter (λ kv : string * R, (0 < kv.2)%R) (LABEL_REGISTRY H)).

(** [Decayer.set_half_life] *)
Definition set_half_life (H : Host) (d : Decayer) (name_or_canonical : string)
    (v : R) : outcome Decayer :=
  if decide (v <= 0)%R then Raises DecayValueError
  else Returns (mkDecayer (removal_threshold d) (min_half_life d)
                  (global_default_half_life d)
                  (<[str_upper H name_or_canonical := v]> (half_life_map d))).

(** [label_names.get_label_meta], reduced to the half-life it yields. *)
Definition registry_half_life (H : Host) (label_name : string) : option R :=
  LABEL_REGISTRY H !! str_upper H label_name.

(** [Decayer.get_half_life] *)
Definition get_half_life (H : Host) (d : Decayer)
    (name_or_canonical : option string) : option R :=
  match name_or_canonical with
  | None => None
  | Some n =>
      let key := str_upper H n in
      match half_life_map d !! key with
      | Some v => Some v
      | None =>
          match registry_half_life H key with
          | Some hl => Some hl
          | None => global_default_half_life d
          end
      end
  end.

(** The key that [load_from_config] treats apart. *)
Definition global_key : string := "global_default_half_life".

(** The loop of [load_from_config]: a [set_half_life] that raises is
    skipped. *)
Definition load_entry (H : Host) (d : Decayer) (kv : string * R) : Decayer :=
  if decide (kv.1 = global_key) then d
  else match set_half_life H d kv.1 kv.2 with
       | Returns d' => d'
       | Raises _ => d
       end.

(** [Decayer.load_from_config]; the config dict is the list of its items
    in their order. *)
Definition load_from_config (H : Host) (d : Decayer) (cfg : list (string * R))
    : Decayer :=
  match cfg with
  | [] => d
  | _ :: _ =>
      let d0 :=
        match (list_to_map cfg : gmap string R) !! global_key with
        | Some g => mkDecayer (removal_threshold d) (min_half_life d) (Some g)
                      (half_life_map d)
        | None => d
        end in
      foldl (load_entry H) d0 cfg
  end.

(** [Decayer._determine_half_life_for_label]: the half-life and where it
    came from.  The [try] blocks of the source guard conversions that cannot
    fail here: the [meta] half-life is a number and [classify_label_item]
    does not raise on a dict. *)
Definition _determine_half_life_for_label (H : Host) (d : Decayer)
    (lab : RawLabel) : option R * string :=
  let from_decayer :=
    match get_half_life H d
            (Some (classify_canonical H (classified_name lab))) with
    | Some hl => (Some hl, "decayer_registry"%string)
    | None =>
        match get_half_life H d (lab_name lab) with
        | Some hl2 => (Some hl2, "decayer_registry_name"%string)
        | None =>
            match global_default_half_life d with
            | Some g => (Some g, "global_default"%string)
            | None => (None, "none"%string)
            end
        end
    end in
  match lab_meta_half_life lab with
  | Some v => if decide (0 < v)%R then (Some v, "instance_meta"%string)
              else from_decayer
  | None => from_decayer
  end.

(** One element of [details]. *)
Record detail : Type := mkDetail {
  detail_id : string;
  detail_name : option string;
  orig_mass : R;
  new_mass : R;
  detail_half_life : option R;
  hl_source : string;
  detail_created_tick : Z;
  detail_dt : Z
}.

(** The dict [apply_to_region] returns. *)
Record summary : Type := mkSummary {
  n_before : nat;
  n_after : nat;
  removed : nat;
  decayed : nat;
  details : list detail
}.

(** The removal test of [apply_to_region]. *)
Definition is_removed (d : Decayer) (m new_m : R) : bool :=
  bool_decide (new_m <= removal_threshold d)%R
  || bool_decide (new_m <= 0)%R
  || (bool_decide (0 < m)%R && bool_decide (new_m / m < 1 / 10 ^ 12)%R).

(** The body of the loop of [apply_to_region] for one label: its detail,
    whether it counts as decayed, and the label written back if it is
    kept. *)
Definition decay_label (H : Host) (d : Decayer) (current_tick : Z)
    (lab : RawLabel) : outcome (detail * bool * option RawLabel) :=
  let m := lab_mass lab in
  let created := lab_created_tick lab in
  let dt := Z.max 0 (current_tick - created) in
  let (hl, src) := _determine_half_life_for_label H d lab in
  let stepped :=
    match hl with
    | None => Returns (m, false)
    | Some h =>
        match _decay_mass (min_half_life d) m (IZR dt) h with
        | FloatOk m' =>
            Returns (m', bool_decide (Rabs (m' - m) > 1 / 10 ^ 12)%R)
        | ZeroDivisionError => Raises DecayZeroDivisionError
        end
    end in
  match stepped with
  | Raises e => Raises e
  | Returns (m', counted) =>
      Returns
        (mkDetail (lab_id lab) (lab_name lab) m m' hl src created dt,
         counted,
         if is_removed d m m' then None
         else Some (mkRawLabel (lab_id lab) (lab_name lab) (lab_label lab)
                      (lab_type lab) m' (lab_created_tick lab) (lab_coord lab)
                      (lab_owner lab) (lab_meta_half_life lab)))
  end.

(** The loop of [apply_to_region] over the labels of the region:
    [details], [decayed_count], [removed_count] and [new_list]. *)
Fixpoint decay_labels (H : Host) (d : Decayer) (current_tick : Z)
    (live : list RawLabel)
    : outcome (list detail * nat * nat * list RawLabel) :=
  match live with
  | [] => Returns ([], 0%nat, 0%nat, [])
  | lab :: rest =>
      match decay_label H d current_tick lab with
      | Raises e => Raises e
      | Returns (dl, counted, kept) =>
          match decay_labels H d current_tick rest with
          | Raises e => Raises e
          | Returns (dls, decayed_count, removed_count, new_list) =>
              Returns (dl :: dls,
                       ((if counted then 1 else 0) + decayed_count)%nat,
                       match kept with
                       | Some _ => removed_count
                       | None => S removed_count
                       end,
                       match kept with
                       | Some lab2 => lab2 :: new_list
                       | None => new_list
                       end)
          end
      end
  end.

(** The regions of a [Space]: [region_id -> list of labels]. *)
Abbreviation Regions := (gmap string (list RawLabel)).

(** [Space.get_labels]: the labels of the region, and the regions after
    [ensure_region]. *)
Definition get_labels (sp : Regions) (region_id : string)
    : list RawLabel * Regions :=
  match sp !! region_id with
  | Some labs => (labs, sp)
  | None => ([], <[region_id := []]> sp)
  end.

(** [Space.replace_labels]; [_assign_id_if_missing] changes nothing on
    labels that carry all their keys. *)
Definition replace_labels (sp : Regions) (region_id : string)
    (labs : list RawLabel) : Regions :=
  <[region_id := labs]> sp.

(** [Decayer.apply_to_region]: the summary and the space afterwards; when
    [_decay_mass] raises nothing is written back. *)
Definition apply_to_region (H : Host) (d : Decayer) (sp : Regions)
    (region_id : string) (current_tick : Z) : outcome (summary * Regions) :=
  let (live, sp1) := get_labels sp region_id in
  match decay_labels H d current_tick live with
  | Raises e => Raises e
  | Returns (dls, decayed_count, removed_count, new_list) =>
      Returns (mkSummary (length live) (length new_list)
                 removed_count decayed_count dls,
               replace_labels sp1 region_id new_list)
  end.

(** ** World (simulaton/world.py) *)

Record World : Type := mkWorld {
  world_label_center : LabelCenter;
  tick_count : Z
}.

(** The intent [World.tick] submits when the cell master left none. *)
Definition bootstrap_intent : intent :=
  emit_label (0, 0)%Z "bootstrap" 1.

(** [World.tick]; [cell_intents] is the [intent_queue] the cell master
    holds after [handle_nodes].  When [apply_tick] raises, [tick_count] is
    not advanced. *)
Definition World_tick (w : World) (cell_intents : list intent)
    : World * option exn :=
  let submitted :=
    match cell_intents with
    | [] => [bootstrap_intent]
    | _ :: _ => cell_intents
    end in
  let lc1 := enqueue_intents (world_label_center w) submitted
               (Some "world_bootstrap"%string) (Some (tick_count w)) in
  match apply_tick lc1 (Some (tick_count w)) with
  | (lc2, None) => (mkWorld lc2 (tick_count w + 1)%Z, None)
  | (lc2, Some e) => (mkWorld lc2 (tick_count w), Some e)
  end.

(** ** Vocabulary of the statements *)

(** The intents that write to the key [(c, l)]. *)
Definition targets (i : intent) (c : Coord) (l : string) : Prop :=
  name i = Some "emit_label"%string ∧
  pl_coord (default empty_payload (intent_payload i)) = Some c ∧
  pl_label (default empty_payload (intent_payload i)) = Some l.

(** [payload.get("amount", 0.0)] *)
Definition intent_amount (i : intent) : Q :=
  default 0%Q (pl_amount (default empty_payload (intent_payload i))).

Global Instance targets_dec i c l : Decision (targets i c l).
Proof. unfold targets. apply _. Defined.

(** Configuration and clock of two stores agree. *)
Definition same_clock (st st' : LabelCenterBase) : Prop :=
  decay_rate st' = decay_rate st ∧
  claim_cooldown st' = claim_cooldown st ∧
  prune_threshold st' = prune_threshold st ∧
  current_tick st' = current_tick st.

(** [e] with its owner replaced; what a successful claim stores. *)
Definition with_owner (e : entry) (o : option OwnerId) : entry :=
  Entry (value e) (last_tick e) o (cooldown_until e).

(** A store used in the examples: [LabelCenterBase(decay_rate=0.5,
    claim_cooldown=2, prune_threshold=0.2)] after one emit of [4.0] of
    [antigen] at [(0, 0)] in tick 0. *)
Definition demo_store : LabelCenterBase :=
  consume_intents (init (1 # 2) 2 (2 # 10))
    [emit_label (0, 0)%Z "antigen" 4].

(** [demo_store] at tick 1, claimed by [percell_A]. *)
Definition demo_claimed : LabelCenterBase :=
  exec (advance_tick demo_store 1) (Claim (0, 0)%Z "antigen" "percell_A").

(** The key [(c, l)] holds an entry that nobody owns. *)
Definition free_at (st : LabelCenterBase) (c : Coord) (l : string) : Prop :=
  ∃ e, lookup_entry st c l = Some e ∧ owned_by e = None.

(** Along the calls [ops] made from [st], the entry at [(c, l)] stays
    stored and unowned: after each call it is still there and free, so no
    [prune] has deleted it and no claim of it has succeeded. *)
Fixpoint stays_free (st : LabelCenterBase) (c : Coord) (l : string)
    (ops : list op) : Prop :=
  match ops with
  | [] => True
  | o :: ops' => free_at (exec st o) c l ∧ stays_free (exec st o) c l ops'
  end.

(** The key [(c, l)] holds a free entry whose cooldown ends at [u]. *)
Definition cooling (st : LabelCenterBase) (c : Coord) (l : string) (u : Z)
    : Prop :=
  ∃ e, lookup_entry st c l = Some e ∧ owned_by e = None ∧
       cooldown_until e = Some u.

(** [demo_claimed], released by its owner in the same tick 1. *)
Definition demo_released : LabelCenterBase :=
  exec demo_claimed (Release (0, 0)%Z "antigen" "percell_A").

(** [demo_claimed], released by its owner at tick 5, when the value [4.0]
    of tick 0 has decayed to [0.125], below the [prune_threshold] of
    [0.2]; the cooldown runs until tick 7. *)
Definition demo_released_late : LabelCenterBase :=
  exec (advance_tick demo_claimed 5) (Release (0, 0)%Z "antigen" "percell_A").

(** Every stored value is non-negative. *)
Definition nonneg_store (st : LabelCenterBase) : Prop :=
  ∀ c l e, lookup_entry st c l = Some e → (0 <= value e)%Q.

(** An emit intent whose amount is not negative. *)
Definition nonneg_intent (i : intent) : Prop :=
  name i = Some "emit_label"%string → (0 <= intent_amount i)%Q.

(** A call that submits no negative amount. *)
Definition nonneg_op (o : op) : Prop :=
  match o with
  | Consume ints => Forall nonneg_intent ints
  | _ => True
  end.

(** The constructor arguments of two stores agree. *)
Definition same_config (st st' : LabelCenterBase) : Prop :=
  decay_rate st' = decay_rate st ∧
  claim_cooldown st' = claim_cooldown st ∧
  prune_threshold st' = prune_threshold st.

(** The calls that only move the clock or read. *)
Definition clock_op (o : op) : Prop :=
  match o with
  | AdvanceTick _ | Tick _ | GetLabel _ _ => True
  | _ => False
  end.

(** An emit intent of the documented shape: it names its coordinate and
    its label.  Intents of other names are skipped by [_apply_intent]. *)
Definition wf_emit (i : intent) : Prop :=
  name i = Some "emit_label"%string →
  is_Some (pl_coord (default empty_payload (intent_payload i))) ∧
  is_Some (pl_label (default empty_payload (intent_payload i))).

(** [float(payload.get("amount", 1.0))] *)
Definition center_amount (i : intent) : Q :=
  default 1%Q (pl_amount (default empty_payload (intent_payload i))).

(** [self.field.get(coord, {}).get(label)] of the queued store. *)
Definition field_value (lc : LabelCenter) (c : Coord) (l : string)
    : option Q :=
  default ∅ (field lc !! c) !! l.

(** What the intents of [ints], in order, make of the value [v] stored
    at the key [(c, l)]: each one that names the key adds its amount. *)
Definition merge_at (c : Coord) (l : string) (ints : list intent)
    (v : option Q) : option Q :=
  foldl (λ v i, if decide (targets i c l)
                then Some (default 0%Q v + center_amount i)%Q else v)
        v ints.

(** A queued store used in the examples: [1.0] of [A] is committed at
    [(1, 1)], and two batches wait in the queue. *)
Definition demo_committed : LabelCenter :=
  mkCenter [] {[ (1, 1)%Z := {[ "A"%string := 1%Q ]} ]} None.

(** A new queued store with one batch of three emit intents, the second
    of which has no [coord] in its payload. *)
Definition demo_partial : LabelCenter :=
  enqueue_intents new_center
    [emit_label (1, 1)%Z "A" 1;
     Intent (Some "emit_label"%string)
       (Some (Payload None (Some "A"%string) (Some 1%Q)));
     emit_label (2, 2)%Z "B" 1] None (Some 0%Z).

Definition demo_center : LabelCenter :=
  enqueue_intents
    (enqueue_intents demo_committed
       [emit_label (1, 1)%Z "A" 3; emit_label (2, 2)%Z "B" 2] None (Some 1%Z))
    [emit_label (1, 1)%Z "A" 2] (Some "test"%string) (Some 1%Z).

(** An emit intent that names both its coordinate and its label; the
    only intents [_consume_intent] acts on. *)
Definition complete_emit (i : intent) : Prop :=
  name i = Some "emit_label"%string ∧
  is_Some (pl_coord (default empty_payload (intent_payload i))) ∧
  is_Some (pl_label (default empty_payload (intent_payload i))).

Global Instance complete_emit_dec i : Decision (complete_emit i).
Proof. unfold complete_emit. apply _. Defined.

(** A call that does not move the clock back. *)
Definition forward_op (o : op) : Prop :=
  match o with
  | Tick step => (0 ≤ step)%Z
  | _ => True
  end.

(** No entry is settled later than the clock of the store. *)
Definition settled_in_past (st : LabelCenterBase) : Prop :=
  ∀ c l e, lookup_entry st c l = Some e → (last_tick e ≤ current_tick st)%Z.

(** The calls of the queued store as data. *)
Inductive center_op : Type :=
| Enqueue (batch_intents : list intent) (src : option string) (t : option Z)
| ApplyTick (t : option Z)
| GetGridSummary.

(** The queued store after one call (for [apply_tick], also when it
    raised). *)
Definition center_exec (lc : LabelCenter) (o : center_op) : LabelCenter :=
  match o with
  | Enqueue batch_intents src t => enqueue_intents lc batch_intents src t
  | ApplyTick t => fst (apply_tick lc t)
  | GetGridSummary => snd (get_grid_summary lc)
  end.

Definition center_run (lc : LabelCenter) (ops : list center_op) : LabelCenter :=
  foldl center_exec lc ops.

(** A call that enqueues emit intents of the documented shape only. *)
Definition wf_center_op (o : center_op) : Prop :=
  match o with
  | Enqueue batch_intents _ _ => Forall wf_emit batch_intents
  | _ => True
  end.

(** The summary cache, when filled, is the summary of the current field. *)
Definition cache_coherent (lc : LabelCenter) : Prop :=
  ∀ s, _grid_summary_cache lc = Some s → s = CellSummary <$> field lc.

(** [lab] with another mass; what [apply_to_region] writes back. *)
Definition with_mass (lab : RawLabel) (m : R) : RawLabel :=
  mkRawLabel (lab_id lab) (lab_name lab) (lab_label lab) (lab_type lab) m
    (lab_created_tick lab) (lab_coord lab) (lab_owner lab)
    (lab_meta_half_life lab).

(** A host for the examples: names are already upper case, the registry
    holds [IL12] (half-life 8) and [PERFORIN_PULSE] (half-life 1), and the
    classification of a name is the name. *)
Definition demo_host : Host :=
  mkHost (λ s, s)
    (list_to_map [("IL12"%string, 8%R); ("PERFORIN_PULSE"%string, 1%R)])
    (λ s, s).

(** [Decayer(removal_threshold=1e-9)] on [demo_host]. *)
Definition demo_decayer : Decayer :=
  Decayer_init demo_host (1 / 10 ^ 9) default_min_half_life None.

(** [mk_label("IL12", mass=8.0, created_tick=0)] of [test_decayer.py],
    with the id the space gave it. *)
Definition demo_il12 : RawLabel :=
  mkRawLabel "id-1" (Some "IL12"%string) None (Some "IL12"%string) 8 0
    None None None.

(** The half-life, in ticks, of a field store that multiplies its values
    by [r] at every tick: the [h] for which [r^h = 0.5]. *)
Definition half_life_of_rate (r : R) : R := (ln (1 / 2) / ln r)%R.

(** The factor by which a label of half-life [h] decays in [dt] ticks. *)
Definition decay_factor_of (dt : Z) (h : R) : R :=
  Rpower (1 / 2) (IZR dt / h).

(** What one pass of the loop of [apply_to_region] at tick [t] leaves of
    the label [lab]: the label with its new mass, or [None] when it is
    removed (or when [_decay_mass] raised). *)
Definition kept_label (H : Host) (d : Decayer) (t : Z) (lab : RawLabel)
    : option RawLabel :=
  match decay_label H d t lab with
  | Returns (_, _, kept) => kept
  | Raises _ => None
  end.

(** [mk_label("PERFORIN_PULSE", mass=1.0, created_tick=7)]. *)
Definition demo_perforin : RawLabel :=
  mkRawLabel "id-2" (Some "PERFORIN_PULSE"%string) None
    (Some "PERFORIN_PULSE"%string) 1 7 None None None.

(** A region with two labels. *)
Definition demo_space : Regions :=
  {[ "lung"%string := [demo_perforin; demo_il12] ]}.

(** The world after [n] ticks in which the cell master left no intent. *)
Fixpoint idle_ticks (n : nat) (w : World) : World :=
  match n with
  | O => w
  | S n' => fst (World_tick (idle_ticks n' w) [])
  end.

(** * Properties *)

(** ** Basic facts about the embedding *)

Lemma Qltb_lt (x y : Q) : Qltb x y = true ↔ (x < y)%Q.
Proof.
  unfold Qltb. rewrite negb_true_iff. split.
  - intros H. apply Qnot_le_lt. intros Hle. apply Qle_bool_iff in Hle. congruence.
  - intros H. destruct (Qle_bool y x) eqn:E; [|done].
    apply Qle_bool_iff in E. exfalso. by apply (Qlt_not_le x y).
Qed.

Lemma Qltb_ge (x y : Q) : Qltb x y = false ↔ (y <= x)%Q.
Proof. unfold Qltb. rewrite negb_false_iff. apply Qle_bool_iff. Qed.

Lemma lookup_entry_store_entry st c l e c' l' :
  lookup_entry (store_entry st c l e) c' l'
  = if decide (c = c' ∧ l = l') then Some e else lookup_entry st c' l'.
Proof.
  unfold lookup_entry, store_entry. simpl.
  destruct (decide (c = c')) as [->|Hc].
  - rewrite lookup_insert_eq. simpl.
    destruct (decide (l = l')) as [->|Hl].
    + rewrite lookup_insert_eq. by rewrite decide_True.
    + rewrite lookup_insert_ne by done.
      rewrite decide_False; [done|]. intros [_ ?]. done.
  - rewrite lookup_insert_ne by done.
    rewrite decide_False; [done|]. intros [? _]. done.
Qed.

Lemma lookup_entry_store_entry_eq st c l e :
  lookup_entry (store_entry st c l e) c l = Some e.
Proof. rewrite lookup_entry_store_entry. by rewrite decide_True. Qed.

Lemma lookup_entry_store_entry_ne st c l e c' l' :
  (c, l) ≠ (c', l') →
  lookup_entry (store_entry st c l e) c' l' = lookup_entry st c' l'.
Proof.
  intros H. rewrite lookup_entry_store_entry. rewrite decide_False; [done|].
  intros [-> ->]. done.
Qed.

(** Writing back the entry that is already stored changes nothing. *)
Lemma store_entry_id st c l e :
  lookup_entry st c l = Some e → label_field (store_entry st c l e) = label_field st.
Proof.
  unfold lookup_entry, store_entry. simpl. intros H.
  destruct (label_field st !! c) as [b|] eqn:Hb; simpl in *.
  - rewrite (insert_id b l e H). by apply insert_id.
  - by rewrite lookup_empty in H.
Qed.

(** What [prune] leaves at a key. *)
Lemma lookup_entry_prune st c l :
  lookup_entry (prune st) c l = lookup_entry st c l ≫= prune_entry st.
Proof.
  unfold lookup_entry, prune. simpl. rewrite lookup_omap.
  destruct (label_field st !! c) as [b|] eqn:Hb; simpl.
  - unfold prune_bucket. case_bool_decide as Hemp; simpl.
    + rewrite lookup_empty. rewrite <- (lookup_omap (prune_entry st) b l).
      by rewrite Hemp, lookup_empty.
    + apply lookup_omap.
  - by rewrite lookup_empty.
Qed.



(** [_consume_intent] writes at most the key its intent names. *)
Lemma _consume_intent_other st i c l :
  ¬ targets i c l →
  lookup_entry (_consume_intent st i) c l = lookup_entry st c l.
Proof.
  intros Hnt. unfold _consume_intent.
  case_bool_decide as Hn; [|done].
  destruct (pl_coord _) as [c'|] eqn:Hc; [|done].
  destruct (pl_label _) as [l'|] eqn:Hl; [|done].
  assert ((c', l') ≠ (c, l)) as Hne.
  { intros [= -> ->]. apply Hnt. by repeat split. }
  destruct (lookup_entry st c' l') as [e'|]; [destruct (owned_by e'); [done|]|];
    by rewrite lookup_entry_store_entry_ne.
Qed.

(** On a key that is free, an emit settles the old value and adds. *)
Lemma _consume_intent_target st i c l :
  targets i c l →
  _consume_intent st i =
    match lookup_entry st c l with
    | Some e =>
        match owned_by e with
        | Some _ => st
        | None =>
            store_entry st c l
              (Entry (_decay st (value e) (last_tick e) + intent_amount i)%Q
                     (current_tick st) None (cooldown_until e))
        end
    | None => store_entry st c l (Entry (intent_amount i) (current_tick st) None None)
    end.
Proof.
  intros (Hn & Hc & Hl). unfold _consume_intent, intent_amount.
  rewrite bool_decide_eq_true_2 by done. rewrite Hc, Hl.
  destruct (lookup_entry st c l) as [e|]; [|done].
  destruct (owned_by e) eqn:Ho; [done|]. done.
Qed.

Lemma _consume_intent_params st i :
  decay_rate (_consume_intent st i) = decay_rate st ∧
  claim_cooldown (_consume_intent st i) = claim_cooldown st ∧
  prune_threshold (_consume_intent st i) = prune_threshold st ∧
  current_tick (_consume_intent st i) = current_tick st.
Proof.
  unfold _consume_intent. case_bool_decide; [|done].
  destruct (pl_coord _); [|done]. destruct (pl_label _); [|done].
  destruct (lookup_entry _ _ _) as [e|]; [destruct (owned_by e)|]; done.
Qed.

Lemma consume_intents_params st l :
  decay_rate (consume_intents st l) = decay_rate st ∧
  claim_cooldown (consume_intents st l) = claim_cooldown st ∧
  prune_threshold (consume_intents st l) = prune_threshold st ∧
  current_tick (consume_intents st l) = current_tick st.
Proof.
  unfold consume_intents. revert st.
  induction l as [|i l IH]; intros st; simpl; [done|].
  destruct (IH (_consume_intent st i)) as (-> & -> & -> & ->).
  apply _consume_intent_params.
Qed.


(** ** Claiming *)

(** C1, counterexample: on a key that has no entry, [claim_label] raises
    [KeyError]; it does not return [False]. *)
Lemma claim_label_missing_raises :
  claim_label init_default (0, 0)%Z "antigen" "percell_A" = Raise KeyError.
Proof. reflexivity. Qed.

(** C1 (amended): [claim_label] raises [KeyError] when the key has no
    entry and raises in no other case.  On an existing entry it returns
    [False], leaving the store as it was, when the entry is owned or when it
    is free with [cooldown_until] set and [current_tick < cooldown_until];
    in every other case it returns [True] and the only change to the store
    is that [owned_by] of this entry is the claimant. *)
Theorem claim_label_outcomes st c l by_ :
  (lookup_entry st c l = None → claim_label st c l by_ = Raise KeyError) ∧
  (∀ e, lookup_entry st c l = Some e →
     (is_Some (owned_by e) → claim_label st c l by_ = Ok (false, st)) ∧
     (owned_by e = None →
      ∀ u, cooldown_until e = Some u → (current_tick st < u)%Z →
           claim_label st c l by_ = Ok (false, st)) ∧
     (owned_by e = None →
      (∀ u, cooldown_until e = Some u → (u ≤ current_tick st)%Z) →
      ∃ st', claim_label st c l by_ = Ok (true, st') ∧
             lookup_entry st' c l = Some (with_owner e (Some by_)) ∧
             (∀ c' l', (c', l') ≠ (c, l) →
                       lookup_entry st' c' l' = lookup_entry st c' l') ∧
             same_clock st st')).
Proof.
  unfold claim_label. split.
  - by intros ->.
  - intros e ->. split; [|split].
    + by intros [o ->].
    + intros -> u -> Hu. by rewrite (proj2 (Z.ltb_lt _ _) Hu).
    + intros -> Hcd.
      assert (∃ st', match cooldown_until e with
                     | Some u =>
                         if (current_tick st <? u)%Z then Ok (false, st)
                         else Ok (true, store_entry st c l (with_owner e (Some by_)))
                     | None => Ok (true, store_entry st c l (with_owner e (Some by_)))
                     end = Ok (true, st')
                     ∧ st' = store_entry st c l (with_owner e (Some by_)))
        as (st' & Heq & ->).
      { destruct (cooldown_until e) as [u|] eqn:Hu.
        - specialize (Hcd u eq_refl).
          rewrite (proj2 (Z.ltb_ge _ _) Hcd). eauto.
        - eauto. }
      eexists. split; [exact Heq|]. split; [apply lookup_entry_store_entry_eq|].
      split; [|done].
      intros c' l' Hne. by apply lookup_entry_store_entry_ne.
Qed.

(** The amended C1 at work: the free entry of [demo_store] is claimed. *)
Lemma claim_label_outcomes_witness :
  ∃ st', claim_label demo_store (0, 0)%Z "antigen" "percell_A" = Ok (true, st') ∧
         lookup_entry st' (0, 0)%Z "antigen"
         = Some (Entry 4 0 (Some "percell_A"%string) None).
Proof.
  destruct (proj2 (claim_label_outcomes demo_store (0, 0)%Z "antigen" "percell_A")
              (Entry 4 0 None None) eq_refl) as (_ & _ & H).
  destruct (H eq_refl) as (st' & Hc & Hl & _).
  - intros u Hu. discriminate Hu.
  - exists st'. split; [exact Hc | exact Hl].
Defined.

(** ** Owned entries are frozen *)

Lemma lookup_entry_advance_tick st t c l :
  lookup_entry (advance_tick st t) c l = lookup_entry st c l.
Proof. unfold advance_tick. by destruct (t <? current_tick st)%Z. Qed.

Lemma lookup_entry_tick st step c l :
  lookup_entry (tick st step) c l = lookup_entry st c l.
Proof. done. Qed.

Lemma _consume_intent_owned st i c l e :
  lookup_entry st c l = Some e → is_Some (owned_by e) →
  lookup_entry (_consume_intent st i) c l = Some e.
Proof.
  intros He [o Ho]. destruct (decide (targets i c l)) as [Ht|Ht].
  - rewrite (_consume_intent_target st i c l Ht), He, Ho. exact He.
  - by rewrite _consume_intent_other.
Qed.

Lemma consume_intents_owned st ints c l e :
  lookup_entry st c l = Some e → is_Some (owned_by e) →
  lookup_entry (consume_intents st ints) c l = Some e.
Proof.
  unfold consume_intents. revert st.
  induction ints as [|i ints IH]; intros st He Ho; simpl; [done|].
  apply IH; [|done]. by apply _consume_intent_owned.
Qed.

Lemma release_label_other st c l by_ st' c' l' :
  release_label st c l by_ = Ok st' → (c, l) ≠ (c', l') →
  lookup_entry st' c' l' = lookup_entry st c' l'.
Proof.
  unfold release_label. intros H Hne.
  destruct (lookup_entry st c l) as [e|]; [|done].
  case_bool_decide; [|done]. injection H as <-.
  by apply lookup_entry_store_entry_ne.
Qed.

Lemma claim_label_other st c l by_ b st' c' l' :
  claim_label st c l by_ = Ok (b, st') → (c, l) ≠ (c', l') →
  lookup_entry st' c' l' = lookup_entry st c' l'.
Proof.
  unfold claim_label. intros H Hne.
  destruct (lookup_entry st c l) as [e|]; [|done].
  destruct (owned_by e); [by injection H as _ <-|].
  destruct (cooldown_until e) as [u|];
    [destruct (current_tick st <? u)%Z; [by injection H as _ <-|]|];
    injection H as _ <-; by apply lookup_entry_store_entry_ne.
Qed.

(** One call that is not the owner's release keeps an owned entry. *)
Lemma exec_owned st o c l e owner :
  lookup_entry st c l = Some e → owned_by e = Some owner →
  o ≠ Release c l owner →
  lookup_entry (exec st o) c l = Some e.
Proof.
  intros He Ho Hne. destruct o as [ints|t|step|c' l'|c' l' by_|c' m lt|c' l' by_|]; simpl.
  - apply consume_intents_owned; [done|]. rewrite Ho. by eexists.
  - by rewrite lookup_entry_advance_tick.
  - done.
  - done.
  - destruct (release_label st c' l' by_) as [st'|x] eqn:Hr; [|done].
    destruct (decide ((c', l') = (c, l))) as [[= -> ->]|Hk].
    + exfalso. unfold release_label in Hr. rewrite He in Hr.
      case_bool_decide as Hby; [|done].
      rewrite Ho in Hby. injection Hby as <-. done.
    + by rewrite (release_label_other _ _ _ _ _ _ _ Hr Hk).
  - done.
  - destruct (claim_label st c' l' by_) as [[b st']|x] eqn:Hc; [|done].
    destruct (decide ((c', l') = (c, l))) as [[= -> ->]|Hk].
    + unfold claim_label in Hc. rewrite He, Ho in Hc. by injection Hc as _ <-.
    + by rewrite (claim_label_other _ _ _ _ _ _ _ _ Hc Hk).
  - rewrite lookup_entry_prune, He. simpl. unfold prune_entry. by rewrite Ho.
Qed.

Lemma run_owned st ops c l e owner :
  lookup_entry st c l = Some e → owned_by e = Some owner →
  Forall (λ o, o ≠ Release c l owner) ops →
  lookup_entry (run st ops) c l = Some e.
Proof.
  unfold run. intros He Ho Hops. revert st He.
  induction Hops as [|o ops Ho' _ IH]; intros st He; simpl; [done|].
  apply IH. by apply (exec_owned st o c l e owner).
Qed.

Lemma get_label_owned st c l e :
  lookup_entry st c l = Some e → is_Some (owned_by e) →
  get_label st c l = value e.
Proof. intros He [o Ho]. unfold get_label. by rewrite He, Ho. Qed.

(** C2: an entry whose [owned_by] is set is frozen until its owner
    releases it.  An emit intent aimed at it leaves the whole store as it
    was; [prune] keeps the entry as it is; and after any sequence of calls
    other than the owner's release (ticks, emits, prunes, claims, releases by
    others) the entry is still the same and [get_label] returns its stored
    value, without decay. *)
Theorem owned_entry_frozen st c l e owner :
  lookup_entry st c l = Some e → owned_by e = Some owner →
  (∀ i, targets i c l → _consume_intent st i = st) ∧
  lookup_entry (prune st) c l = Some e ∧
  (∀ ops, Forall (λ o, o ≠ Release c l owner) ops →
          lookup_entry (run st ops) c l = Some e ∧
          get_label (run st ops) c l = value e).
Proof.
  intros He Ho. split; [|split].
  - intros i Ht. by rewrite (_consume_intent_target st i c l Ht), He, Ho.
  - by apply (exec_owned st Prune c l e owner).
  - intros ops Hops.
    pose proof (run_owned st ops c l e owner He Ho Hops) as Hrun.
    split; [done|]. apply get_label_owned; [done|]. rewrite Ho. by eexists.
Qed.

(** C2 at work on [demo_claimed]: eight more ticks, an emit of [10.0] on
    the owned key, a prune and a rival claim later, the read is still
    [4.0]. *)
Lemma owned_entry_frozen_witness :
  get_label
    (run demo_claimed
       [AdvanceTick 9; Consume [emit_label (0, 0)%Z "antigen" 10]; Prune;
        Claim (0, 0)%Z "antigen" "percell_B"; Tick 3])
    (0, 0)%Z "antigen" = 4%Q.
Proof.
  refine (proj2 (proj2 (proj2 (owned_entry_frozen demo_claimed (0, 0)%Z "antigen"
            (Entry 4 0 (Some "percell_A"%string) None) "percell_A"
            eq_refl eq_refl)) _ _)).
  repeat constructor; discriminate.
Defined.

(** ** Release and cooldown *)

Lemma _consume_intent_cooling st i c l u :
  cooling st c l u → cooling (_consume_intent st i) c l u.
Proof.
  intros (e & He & Ho & Hu). destruct (decide (targets i c l)) as [Ht|Ht].
  - rewrite (_consume_intent_target st i c l Ht), He, Ho.
    eexists. split; [apply lookup_entry_store_entry_eq|]. done.
  - exists e. by rewrite _consume_intent_other.
Qed.

(** A claim on a cooling key is decided by the clock alone. *)
Lemma claim_label_cooling st c l u by_ :
  cooling st c l u →
  ((current_tick st < u)%Z → claim_label st c l by_ = Ok (false, st)) ∧
  ((u ≤ current_tick st)%Z →
   ∃ st', claim_label st c l by_ = Ok (true, st') ∧
          owned_by <$> lookup_entry st' c l = Some (Some by_)).
Proof.
  intros (e & He & Ho & Hu). unfold claim_label. rewrite He, Ho, Hu. split.
  - intros Hlt. by rewrite (proj2 (Z.ltb_lt _ _) Hlt).
  - intros Hge. rewrite (proj2 (Z.ltb_ge _ _) Hge).
    eexists. split; [done|]. by rewrite lookup_entry_store_entry_eq.
Qed.

(** While the entry stays stored and free, its cooldown stays: no call
    rewrites [cooldown_until] of a free entry. *)
Lemma exec_cooling st o c l u :
  cooling st c l u → free_at (exec st o) c l → cooling (exec st o) c l u.
Proof.
  intros Hcool Hfree.
  destruct o as [ints|t|step|c' l'|c' l' by_|c' m lt|c' l' by_|]; simpl.
  - unfold consume_intents. clear Hfree. revert st Hcool.
    induction ints as [|i ints IH]; intros st Hcool; simpl; [done|].
    apply IH. by apply _consume_intent_cooling.
  - destruct Hcool as (e & He & Ho & Hu). exists e.
    by rewrite lookup_entry_advance_tick.
  - done.
  - done.
  - destruct (release_label st c' l' by_) as [st'|x] eqn:Hr; [|done].
    destruct Hcool as (e & He & Ho & Hu).
    destruct (decide ((c', l') = (c, l))) as [[= -> ->]|Hk].
    + unfold release_label in Hr. rewrite He, Ho in Hr.
      by rewrite bool_decide_eq_false_2 in Hr.
    + exists e. by rewrite (release_label_other _ _ _ _ _ _ _ Hr Hk).
  - done.
  - simpl in Hfree.
    destruct (claim_label st c' l' by_) as [[b st']|x] eqn:Hc; [|done].
    destruct (decide ((c', l') = (c, l))) as [[= -> ->]|Hk].
    + destruct (Z_lt_le_dec (current_tick st) u) as [Hlt|Hge].
      * rewrite (proj1 (claim_label_cooling st c l u by_ Hcool) Hlt) in Hc.
        by injection Hc as <- <-.
      * destruct (proj2 (claim_label_cooling st c l u by_ Hcool) Hge)
          as (st'' & Hc' & Hown).
        rewrite Hc' in Hc. injection Hc as <- <-.
        destruct Hfree as (e' & He' & Ho'). rewrite He' in Hown.
        simpl in Hown. congruence.
    + destruct Hcool as (e & He & Ho & Hu).
      exists e. by rewrite (claim_label_other _ _ _ _ _ _ _ _ Hc Hk).
  - simpl in Hfree. destruct Hcool as (e & He & Ho & Hu).
    destruct Hfree as (e' & He' & Ho').
    rewrite lookup_entry_prune, He in He'. simpl in He'.
    unfold prune_entry in He'. rewrite Ho in He'.
    destruct (Qltb _ _) eqn:Hb; [done|]. injection He' as <-.
    eexists. split.
    + rewrite lookup_entry_prune, He. simpl. unfold prune_entry.
      by rewrite Ho, Hb.
    + done.
Qed.

Lemma run_cooling st ops c l u :
  cooling st c l u → stays_free st c l ops → cooling (run st ops) c l u.
Proof.
  unfold run. revert st.
  induction ops as [|o ops IH]; intros st Hcool Hops; simpl; [done|].
  destruct Hops as [Hfree Hrest].
  apply IH; [|done]. by apply exec_cooling.
Qed.

(** C3 (amended): a release by the owner at tick [T] of a store with
    [claim_cooldown = c] sets [owned_by] to [None] and [cooldown_until] to
    [T + c], touching neither [value] nor [last_tick].  From then on, for as
    long as the entry stays stored and unowned (through any ticks, emits,
    reads, failed claims, releases, and prunes that do not delete it), every
    claim by any claimant made when [current_tick < T + c] returns [False]
    and changes nothing, and every claim made when [current_tick >= T + c]
    succeeds.  In particular a claim right after the release, in the same
    tick, fails when [c > 0]. *)
Theorem release_label_cooldown st c l by_ st' :
  release_label st c l by_ = Ok st' →
  (∃ e, lookup_entry st c l = Some e ∧ owned_by e = Some by_ ∧
        lookup_entry st' c l
        = Some (Entry (value e) (last_tick e) None
                      (Some (current_tick st + claim_cooldown st)%Z))) ∧
  (∀ ops by', stays_free st' c l ops →
     ((current_tick (run st' ops) < current_tick st + claim_cooldown st)%Z →
      claim_label (run st' ops) c l by' = Ok (false, run st' ops)) ∧
     ((current_tick st + claim_cooldown st ≤ current_tick (run st' ops))%Z →
      ∃ st'', claim_label (run st' ops) c l by' = Ok (true, st'') ∧
              owned_by <$> lookup_entry st'' c l = Some (Some by'))) ∧
  ((0 < claim_cooldown st)%Z →
   ∀ by', claim_label st' c l by' = Ok (false, st')).
Proof.
  intros Hr.
  assert (∃ e, lookup_entry st c l = Some e ∧ owned_by e = Some by_ ∧
               st' = store_entry st c l
                       (Entry (value e) (last_tick e) None
                          (Some (current_tick st + claim_cooldown st)%Z)))
    as (e & He & Ho & ->).
  { unfold release_label in Hr. destruct (lookup_entry st c l) as [e|]; [|done].
    case_bool_decide as Hby; [|done]. injection Hr as <-. by exists e. }
  set (u := (current_tick st + claim_cooldown st)%Z).
  set (st' := store_entry st c l _).
  assert (cooling st' c l u) as Hcool.
  { eexists. split; [apply lookup_entry_store_entry_eq|]. done. }
  split; [|split].
  - exists e. split; [done|]. split; [done|]. apply lookup_entry_store_entry_eq.
  - intros ops by' Hops.
    apply claim_label_cooling. by apply run_cooling.
  - intros Hpos by'.
    apply (proj1 (claim_label_cooling st' c l u by' Hcool)).
    subst u st'. simpl. lia.
Qed.

(** C3 at work: [demo_released] was released at tick 1 with cooldown 2.
    A rival's claim fails in tick 1; it fails again in tick 2, after a
    [prune] that keeps the entry (its value is [1.0] then) and after the
    failed claim of another rival; and it succeeds in tick 3. *)
Lemma release_label_cooldown_witness :
  claim_label demo_released (0, 0)%Z "antigen" "percell_B"
  = Ok (false, demo_released) ∧
  claim_label
    (run demo_released
       [AdvanceTick 2; Prune; Claim (0, 0)%Z "antigen" "percell_C"])
    (0, 0)%Z "antigen" "percell_B"
  = Ok (false,
        run demo_released
          [AdvanceTick 2; Prune; Claim (0, 0)%Z "antigen" "percell_C"]) ∧
  ∃ st'', claim_label (run demo_released [AdvanceTick 3]) (0, 0)%Z "antigen"
            "percell_B" = Ok (true, st'') ∧
          owned_by <$> lookup_entry st'' (0, 0)%Z "antigen"
          = Some (Some "percell_B"%string).
Proof.
  pose proof (release_label_cooldown demo_claimed (0, 0)%Z "antigen" "percell_A"
                demo_released eq_refl) as (_ & Hwin & Hsame).
  split; [|split].
  - apply Hsame. reflexivity.
  - apply (Hwin [AdvanceTick 2; Prune; Claim (0, 0)%Z "antigen" "percell_C"]
             "percell_B"%string).
    + cbn [stays_free].
      repeat (split; [eexists; split; [vm_compute; reflexivity|reflexivity]|]).
      exact I.
    + vm_compute. reflexivity.
  - apply (Hwin [AdvanceTick 3] "percell_B"%string).
    + cbn [stays_free].
      repeat (split; [eexists; split; [vm_compute; reflexivity|reflexivity]|]).
      exact I.
    + vm_compute. discriminate.
Defined.

(** C3, counterexample: the cooldown is a field of the entry and does
    not outlive it.  [demo_released_late] was released at tick 5 with
    cooldown 2, so the window is [[5, 7)].  A [prune] in tick 5 deletes the
    entry, whose value has decayed below the threshold: a rival's claim then
    raises [KeyError] instead of returning [False], and after one more emit
    on the key the rival's claim returns [True], still in tick 5. *)
Lemma prune_ends_cooldown :
  release_label (advance_tick demo_claimed 5) (0, 0)%Z "antigen" "percell_A"
  = Ok demo_released_late ∧
  cooldown_until <$> lookup_entry demo_released_late (0, 0)%Z "antigen"
  = Some (Some 7%Z) ∧
  claim_label (run demo_released_late [Prune]) (0, 0)%Z "antigen" "percell_B"
  = Raise KeyError ∧
  current_tick
    (run demo_released_late
       [Prune; Consume [emit_label (0, 0)%Z "antigen" 1]]) = 5%Z ∧
  ∃ st'',
    claim_label
      (run demo_released_late
         [Prune; Consume [emit_label (0, 0)%Z "antigen" 1]])
      (0, 0)%Z "antigen" "percell_B" = Ok (true, st'').
Proof.
  split; [vm_compute; reflexivity|]. split; [vm_compute; reflexivity|].
  split; [vm_compute; reflexivity|]. split; [vm_compute; reflexivity|].
  eexists. vm_compute. reflexivity.
Qed.

(** ** Configuration and clock *)

Lemma release_label_clock st c l by_ st' :
  release_label st c l by_ = Ok st' → same_clock st st'.
Proof.
  unfold release_label. destruct (lookup_entry st c l); [|done].
  case_bool_decide; [|done]. by intros [= <-].
Qed.

Lemma claim_label_clock st c l by_ b st' :
  claim_label st c l by_ = Ok (b, st') → same_clock st st'.
Proof.
  unfold claim_label. destruct (lookup_entry st c l) as [e|]; [|done].
  destruct (owned_by e); [by intros [= _ <-]|].
  destruct (cooldown_until e) as [u|];
    [destruct (current_tick st <? u)%Z|]; by intros [= _ <-].
Qed.

Lemma exec_config st o : same_config st (exec st o).
Proof.
  destruct o as [ints|t|step|c' l'|c' l' by_|c' m lt|c' l' by_|]; simpl;
    try done.
  - destruct (consume_intents_params st ints) as (? & ? & ? & _). done.
  - unfold advance_tick. by destruct (t <? current_tick st)%Z.
  - destruct (release_label st c' l' by_) as [st'|x] eqn:Hr; [|done].
    destruct (release_label_clock _ _ _ _ _ Hr) as (? & ? & ? & _). done.
  - destruct (claim_label st c' l' by_) as [[b st']|x] eqn:Hc; [|done].
    destruct (claim_label_clock _ _ _ _ _ _ Hc) as (? & ? & ? & _). done.
Qed.

Lemma run_config st ops : same_config st (run st ops).
Proof.
  unfold run. revert st. induction ops as [|o ops IH]; intros st; simpl; [done|].
  destruct (IH (exec st o)) as (H1 & H2 & H3).
  destruct (exec_config st o) as (H1' & H2' & H3').
  unfold same_config. rewrite H1, H2, H3. done.
Qed.

(** [advance_tick] to an earlier tick does nothing. *)
Lemma advance_tick_earlier st t :
  (t < current_tick st)%Z → advance_tick st t = st.
Proof. intros H. unfold advance_tick. by rewrite (proj2 (Z.ltb_lt _ _) H). Qed.

(** [advance_tick] never moves the clock back. *)
Lemma advance_tick_monotone st t :
  (current_tick st ≤ current_tick (advance_tick st t))%Z.
Proof.
  unfold advance_tick. destruct (Z.ltb_spec t (current_tick st)); simpl; lia.
Qed.

(** Every call other than [tick] with a negative step keeps or advances
    the clock. *)
Lemma exec_clock_monotone st o :
  (∀ step, o = Tick step → (0 ≤ step)%Z) →
  (current_tick st ≤ current_tick (exec st o))%Z.
Proof.
  intros Hstep.
  destruct o as [ints|t|step|c' l'|c' l' by_|c' m lt|c' l' by_|]; simpl;
    try lia.
  - destruct (consume_intents_params st ints) as (_ & _ & _ & ->). lia.
  - apply advance_tick_monotone.
  - specialize (Hstep step eq_refl). lia.
  - destruct (release_label st c' l' by_) as [st'|x] eqn:Hr; [|lia].
    destruct (release_label_clock _ _ _ _ _ Hr) as (_ & _ & _ & ->). lia.
  - destruct (claim_label st c' l' by_) as [[b st']|x] eqn:Hc; [|lia].
    destruct (claim_label_clock _ _ _ _ _ _ Hc) as (_ & _ & _ & ->). lia.
Qed.

(** C7, at the failing input: [tick(-1)] on a store at tick 5 puts the
    clock back to 4, below where it was; [advance_tick] would have refused
    the same move. *)
Theorem tick_negative_step_rewinds :
  current_tick (exec (advance_tick init_default 5) (Tick (-1))) = 4%Z ∧
  (current_tick (exec (advance_tick init_default 5) (Tick (-1)))
   < current_tick (advance_tick init_default 5))%Z ∧
  exec (advance_tick init_default 5) (AdvanceTick 4) = advance_tick init_default 5.
Proof. repeat split. Qed.

(** ** Sign of the stored values *)

Lemma _decay_nonneg st v last : (0 <= v)%Q → (0 <= _decay st v last)%Q.
Proof.
  intros Hv. unfold _decay.
  destruct (current_tick st - last <=? 0)%Z; [done|].
  destruct (Qle_bool (decay_rate st) 0) eqn:Hr; [done|].
  apply Qmult_le_0_compat; [done|]. apply Qpower_0_le.
  apply Qlt_le_weak, Qnot_le_lt. intros Hle.
  apply Qle_bool_iff in Hle. congruence.
Qed.

Lemma _consume_intent_nonneg st i :
  nonneg_store st → nonneg_intent i → nonneg_store (_consume_intent st i).
Proof.
  intros Hst Hi c l e' He'.
  destruct (decide (targets i c l)) as [Ht|Ht].
  - rewrite (_consume_intent_target st i c l Ht) in He'.
    pose proof (Hi (proj1 Ht)) as Ha.
    destruct (lookup_entry st c l) as [e|] eqn:He.
    + destruct (owned_by e).
      * apply (Hst c l). congruence.
      * rewrite lookup_entry_store_entry_eq in He'. injection He' as <-. simpl.
        pose proof (_decay_nonneg st (value e) (last_tick e) (Hst c l e He)) as Hd.
        apply (Qplus_le_compat 0 _ 0 _ Hd Ha).
    + rewrite lookup_entry_store_entry_eq in He'. by injection He' as <-.
  - rewrite _consume_intent_other in He' by done. by apply (Hst c l).
Qed.

Lemma consume_intents_nonneg st ints :
  nonneg_store st → Forall nonneg_intent ints →
  nonneg_store (consume_intents st ints).
Proof.
  unfold consume_intents. intros Hst Hints. revert st Hst.
  induction Hints as [|i ints Hi _ IH]; intros st Hst; simpl; [done|].
  apply IH. by apply _consume_intent_nonneg.
Qed.

Lemma exec_nonneg st o :
  nonneg_store st → nonneg_op o → nonneg_store (exec st o).
Proof.
  intros Hst Ho.
  destruct o as [ints|t|step|c' l'|c' l' by_|c' m lt|c' l' by_|]; simpl.
  - by apply consume_intents_nonneg.
  - intros c l e. rewrite lookup_entry_advance_tick. apply Hst.
  - exact Hst.
  - exact Hst.
  - unfold release_label.
    destruct (lookup_entry st c' l') as [e'|] eqn:He'; [|done].
    case_bool_decide; [|done].
    intros c l e. rewrite lookup_entry_store_entry. case_decide.
    + intros [= <-]. simpl. by apply (Hst c' l').
    + apply Hst.
  - exact Hst.
  - unfold claim_label.
    destruct (lookup_entry st c' l') as [e'|] eqn:He'; [|done].
    assert (nonneg_store (store_entry st c' l'
              (Entry (value e') (last_tick e') (Some by_) (cooldown_until e'))))
      as Hclaimed.
    { intros c l e. rewrite lookup_entry_store_entry. case_decide.
      - intros [= <-]. simpl. by apply (Hst c' l').
      - apply Hst. }
    destruct (owned_by e'); [done|].
    destruct (cooldown_until e') as [u|];
      [destruct (current_tick st <? u)%Z|]; done.
  - intros c l e. rewrite lookup_entry_prune.
    destruct (lookup_entry st c l) as [e0|] eqn:He0; [|done]. simpl.
    unfold prune_entry. destruct (owned_by e0).
    + intros [= <-]. by apply (Hst c l).
    + destruct (Qltb _ _); [done|]. intros [= <-]. simpl.
      apply _decay_nonneg. by apply (Hst c l).
Qed.

Lemma init_nonneg rate cooldown threshold :
  nonneg_store (init rate cooldown threshold).
Proof. intros c l e. unfold lookup_entry. simpl. by rewrite !lookup_empty. Qed.

(** C5, counterexample: the store does not check the sign of an amount;
    one emit of [-1.0] on a fresh store leaves a negative value. *)
Lemma negative_amount_negative_value :
  ∃ e, lookup_entry
         (run init_default [Consume [emit_label (0, 0)%Z "antigen" (-1)]])
         (0, 0)%Z "antigen" = Some e ∧
       (value e < 0)%Q.
Proof. exists (Entry (-1) 0 None None). split; reflexivity. Qed.

(** C5 (amended): if no submitted emit intent carries a negative amount,
    then after every call on a store built by the constructor (emits, ticks,
    claims, releases, prunes, in any order) the [value] of every entry is
    non-negative.  The store itself does not validate the sign. *)
Theorem values_nonneg rate cooldown threshold ops :
  Forall nonneg_op ops →
  nonneg_store (run (init rate cooldown threshold) ops).
Proof.
  intros Hops. unfold run.
  generalize (init_nonneg rate cooldown threshold).
  generalize (init rate cooldown threshold) as st.
  induction Hops as [|o ops Ho _ IH]; intros st Hst; simpl; [done|].
  apply IH. by apply exec_nonneg.
Qed.

(** The amended C5 at work: two emits, decay over three ticks, a prune. *)
Lemma values_nonneg_witness :
  nonneg_store
    (run (init (1 # 2) 2 (2 # 10))
       [Consume [emit_label (0, 0)%Z "antigen" 4; emit_label (1, 1)%Z "IL12" 0];
        AdvanceTick 3; Consume [emit_label (0, 0)%Z "antigen" 1]; Prune]).
Proof.
  apply values_nonneg.
  repeat constructor; intros _; vm_compute; discriminate.
Defined.

(** ** Pruning *)

Lemma prune_no_empty_bucket st c : label_field (prune st) !! c ≠ Some ∅.
Proof.
  unfold prune. simpl. rewrite lookup_omap.
  destruct (label_field st !! c) as [b|]; simpl; [|done].
  unfold prune_bucket. case_bool_decide as Hemp; [done|]. congruence.
Qed.



(** The first, replaced [prune] would have kept an entry that survives as
    it was stored; the effective one settles it. *)
Example prune_shadowed_differs :
  lookup_entry (prune_shadowed (advance_tick demo_store 2)) (0, 0)%Z "antigen"
  = Some (Entry 4 0 None None) ∧
  lookup_entry (prune (advance_tick demo_store 2)) (0, 0)%Z "antigen"
  = Some (Entry (4 * (1 # 2) ^ 2) 2 None None).
Proof. split; reflexivity. Qed.

(** ** Reading *)

(** The decay of the field store in closed form. *)
Lemma _decay_cases st v last :
  ((current_tick st ≤ last)%Z → _decay st v last = v) ∧
  ((decay_rate st <= 0)%Q → _decay st v last = v) ∧
  ((last < current_tick st)%Z → (0 < decay_rate st)%Q →
   _decay st v last = (v * decay_rate st ^ (current_tick st - last))%Q).
Proof.
  unfold _decay. split; [|split].
  - intros H. by rewrite (proj2 (Z.leb_le _ _)) by lia.
  - intros H. rewrite (proj2 (Qle_bool_iff _ _) H).
    by destruct (_ <=? _)%Z.
  - intros Ht Hr. rewrite (proj2 (Z.leb_gt _ _)) by lia.
    destruct (Qle_bool (decay_rate st) 0) eqn:Hb; [|done].
    apply Qle_bool_iff in Hb. exfalso. by apply (Qlt_not_le _ _ Hr).
Qed.

(** [_decay] reads the clock and the rate of the store and nothing else. *)
Lemma _decay_ext st st' v last :
  current_tick st' = current_tick st → decay_rate st' = decay_rate st →
  _decay st' v last = _decay st v last.
Proof. unfold _decay. by intros -> ->. Qed.

Lemma get_label_free st c l e :
  lookup_entry st c l = Some e → owned_by e = None →
  get_label st c l
  = if Qltb (_decay st (value e) (last_tick e)) (prune_threshold st)
    then 0%Q else _decay st (value e) (last_tick e).
Proof. intros He Ho. unfold get_label. by rewrite He, Ho. Qed.

(** C8: [get_label] returns [0.0] when the key has no entry.  For a free
    entry it computes the value decayed from [last_tick] to [current_tick]
    and returns it, except that it returns [0.0] when that decayed value is
    below [prune_threshold]; the entry is still there afterwards, with the
    [value] and [last_tick] it had: a read writes nothing. *)
Theorem get_label_lazy_read st c l :
  (lookup_entry st c l = None → get_label st c l = 0%Q) ∧
  (∀ e, lookup_entry st c l = Some e → owned_by e = None →
     ((_decay st (value e) (last_tick e) < prune_threshold st)%Q →
      get_label st c l = 0%Q) ∧
     (¬ (_decay st (value e) (last_tick e) < prune_threshold st)%Q →
      get_label st c l = _decay st (value e) (last_tick e)) ∧
     ((last_tick e < current_tick st)%Z → (0 < decay_rate st)%Q →
      _decay st (value e) (last_tick e)
      = (value e * decay_rate st ^ (current_tick st - last_tick e))%Q) ∧
     lookup_entry (exec st (GetLabel c l)) c l = Some e) ∧
  exec st (GetLabel c l) = st.
Proof.
  split; [|split; [|done]].
  - intros He. unfold get_label. by rewrite He.
  - intros e He Ho. rewrite (get_label_free st c l e He Ho).
    split; [|split; [|split]].
    + intros Hlt. by rewrite (proj2 (Qltb_lt _ _) Hlt).
    + intros Hge. destruct (Qltb _ _) eqn:Hb; [|done]. by apply Qltb_lt in Hb.
    + apply _decay_cases.
    + exact He.
Qed.

(** C8 at work: [demo_store] holds [4.0] since tick 0 and halves per
    tick; at tick 2 the read is [4 * 0.5^2], at tick 5 it is [0.0] because
    [0.125 < 0.2], and the entry is still stored. *)
Lemma get_label_lazy_read_witness :
  get_label (advance_tick demo_store 2) (0, 0)%Z "antigen"
  = _decay (advance_tick demo_store 2) 4 0 ∧
  get_label (advance_tick demo_store 5) (0, 0)%Z "antigen" = 0%Q ∧
  lookup_entry (exec (advance_tick demo_store 5) (GetLabel (0, 0)%Z "antigen"))
    (0, 0)%Z "antigen" = Some (Entry 4 0 None None).
Proof.
  destruct (proj1 (proj2 (get_label_lazy_read (advance_tick demo_store 2)
              (0, 0)%Z "antigen")) (Entry 4 0 None None) eq_refl eq_refl)
    as (_ & Hvis & _).
  destruct (proj1 (proj2 (get_label_lazy_read (advance_tick demo_store 5)
              (0, 0)%Z "antigen")) (Entry 4 0 None None) eq_refl eq_refl)
    as (Hfloor & _ & _ & Hkept).
  split; [|split].
  - apply Hvis. vm_compute. discriminate.
  - apply Hfloor. reflexivity.
  - exact Hkept.
Defined.

(** ** Ownership does not stop the clock of an entry *)

Lemma claim_label_true_inv st c l by_ st' e :
  lookup_entry st c l = Some e →
  claim_label st c l by_ = Ok (true, st') →
  owned_by e = None ∧ st' = store_entry st c l (with_owner e (Some by_)).
Proof.
  unfold claim_label. intros -> H.
  destruct (owned_by e); [done|]. split; [done|].
  destruct (cooldown_until e) as [u|] eqn:Hu;
    [destruct (current_tick st <? u)%Z; [done|]|];
    injection H as <-; unfold with_owner; by rewrite Hu.
Qed.

Lemma release_label_inv st c l by_ st' e :
  lookup_entry st c l = Some e →
  release_label st c l by_ = Ok st' →
  owned_by e = Some by_ ∧
  st' = store_entry st c l
          (Entry (value e) (last_tick e) None
             (Some (current_tick st + claim_cooldown st)%Z)).
Proof.
  unfold release_label. intros -> H.
  case_bool_decide; [|done]. by injection H as <-.
Qed.

Lemma exec_clock_op_lookup st o c l :
  clock_op o → lookup_entry (exec st o) c l = lookup_entry st c l.
Proof.
  destruct o; simpl; try done. intros _. apply lookup_entry_advance_tick.
Qed.

Lemma run_clock_ops_lookup st ops c l :
  Forall clock_op ops → lookup_entry (run st ops) c l = lookup_entry st c l.
Proof.
  unfold run. intros Hops. revert st.
  induction Hops as [|o ops Ho _ IH]; intros st; simpl; [done|].
  rewrite IH. by apply exec_clock_op_lookup.
Qed.

(** C10: [claim_label] and [release_label] write [owned_by] and
    [cooldown_until] only; [value] and [last_tick] stay as they were.  So
    for an entry last settled at tick [S], claimed, held through any calls
    other than its owner's release, released, and then read after the clock
    moved on: while owned the read is the stored value, and after the
    release the read is what the store would return had the entry never been
    claimed, the value decayed over the whole interval from [S] to the
    current tick (and [0.0] below [prune_threshold], as for every read). *)
Theorem release_forgets_frozen_period st c l e by_ st1 ops1 st2 ops2 :
  lookup_entry st c l = Some e →
  claim_label st c l by_ = Ok (true, st1) →
  Forall (λ o, o ≠ Release c l by_) ops1 →
  release_label (run st1 ops1) c l by_ = Ok st2 →
  Forall clock_op ops2 →
  lookup_entry st1 c l = Some (with_owner e (Some by_)) ∧
  lookup_entry st2 c l
  = Some (Entry (value e) (last_tick e) None
            (Some (current_tick (run st1 ops1) + claim_cooldown st)%Z)) ∧
  get_label (run st1 ops1) c l = value e ∧
  get_label (run st2 ops2) c l
  = get_label (set_current_tick st (current_tick (run st2 ops2))) c l ∧
  ((last_tick e < current_tick (run st2 ops2))%Z → (0 < decay_rate st)%Q →
   ¬ (value e * decay_rate st ^ (current_tick (run st2 ops2) - last_tick e)
      < prune_threshold st)%Q →
   get_label (run st2 ops2) c l
   = (value e * decay_rate st ^ (current_tick (run st2 ops2) - last_tick e))%Q).
Proof.
  intros He Hc Hops1 Hr Hops2.
  destruct (claim_label_true_inv _ _ _ _ _ _ He Hc) as [Hfree ->].
  set (st1 := store_entry st c l (with_owner e (Some by_))) in *.
  assert (lookup_entry st1 c l = Some (with_owner e (Some by_))) as He1
    by apply lookup_entry_store_entry_eq.
  pose proof (run_owned st1 ops1 c l _ by_ He1 eq_refl Hops1) as Hheld.
  destruct (release_label_inv _ _ _ _ _ _ Hheld Hr) as [_ ->].
  set (st1' := run st1 ops1) in *.
  set (e2 := Entry _ _ None _). set (st2 := store_entry st1' c l e2).
  assert (same_config st st1') as (Hrate1 & Hcd1 & Hthr1).
  { exact (run_config st1 ops1). }
  assert (lookup_entry (run st2 ops2) c l = Some e2) as He3.
  { rewrite run_clock_ops_lookup by done. apply lookup_entry_store_entry_eq. }
  assert (same_config st (run st2 ops2)) as (Hrate3 & _ & Hthr3).
  { destruct (run_config st2 ops2) as (H1 & H2 & H3).
    unfold same_config. rewrite H1, H2, H3. done. }
  set (st3 := run st2 ops2) in *.
  assert (get_label st3 c l
          = get_label (set_current_tick st (current_tick st3)) c l) as Hsame.
  { rewrite (get_label_free st3 c l e2 He3 eq_refl).
    rewrite (get_label_free (set_current_tick st (current_tick st3)) c l e He Hfree).
    simpl. rewrite Hthr3.
    by rewrite (_decay_ext (set_current_tick st (current_tick st3)) st3). }
  split; [done|]. split.
  { subst st2 e2. rewrite lookup_entry_store_entry_eq. by rewrite Hcd1. }
  split.
  { apply get_label_owned with (e := with_owner e (Some by_)); [done|].
    by eexists. }
  split; [done|].
  intros Hlt Hpos Hvis. rewrite Hsame.
  rewrite (get_label_free (set_current_tick st (current_tick st3)) c l e
             He Hfree).
  destruct (_decay_cases (set_current_tick st (current_tick st3))
              (value e) (last_tick e)) as (_ & _ & Hd).
  rewrite (Hd Hlt Hpos). simpl.
  destruct (Qltb _ _) eqn:Hb; [|done]. by apply Qltb_lt in Hb.
Qed.

(** C10 at work: [4.0] emitted at tick 0, claimed at tick 1, read as
    [4.0] at tick 2, released there; the next read is [4 * 0.5^2], not
    [4.0]. *)
Lemma release_forgets_frozen_period_witness :
  get_label (run demo_claimed [AdvanceTick 2]) (0, 0)%Z "antigen" = 4%Q ∧
  get_label
    (exec (run demo_claimed [AdvanceTick 2])
       (Release (0, 0)%Z "antigen" "percell_A"))
    (0, 0)%Z "antigen" = (4 * (1 # 2) ^ 2)%Q.
Proof.
  destruct (release_forgets_frozen_period (advance_tick demo_store 1)
              (0, 0)%Z "antigen" (Entry 4 0 None None) "percell_A"
              demo_claimed [AdvanceTick 2]
              (exec (run demo_claimed [AdvanceTick 2])
                 (Release (0, 0)%Z "antigen" "percell_A")) [])
    as (_ & _ & Hfrozen & _ & Hafter).
  - reflexivity.
  - reflexivity.
  - repeat constructor; discriminate.
  - reflexivity.
  - constructor.
  - split; [exact Hfrozen|].
    apply Hafter; [reflexivity | reflexivity | vm_compute; discriminate].
Defined.

(** ** The queued store: writes wait for [apply_tick] *)

Lemma _apply_intent_wf lc i :
  wf_emit i →
  ∃ lc', _apply_intent lc i = Ok lc' ∧
         intent_queue lc' = intent_queue lc ∧
         _grid_summary_cache lc' = _grid_summary_cache lc ∧
         ∀ c l, field_value lc' c l
                = if decide (targets i c l)
                  then Some (default 0%Q (field_value lc c l) + center_amount i)%Q
                  else field_value lc c l.
Proof.
  intros Hwf. unfold _apply_intent. case_bool_decide as Hn.
  - destruct (Hwf Hn) as [[c0 Hc0] [l0 Hl0]]. rewrite Hc0, Hl0.
    eexists. split; [done|]. split; [done|]. split; [done|].
    intros c l. unfold field_value. simpl. case_decide as Ht.
    + destruct Ht as (_ & Hc & Hl). rewrite Hc0 in Hc. rewrite Hl0 in Hl.
      injection Hc as ->. injection Hl as ->.
      by rewrite lookup_insert_eq; simpl; rewrite lookup_insert_eq.
    + destruct (decide (c0 = c)) as [->|Hc].
      * rewrite lookup_insert_eq. simpl. rewrite lookup_insert_ne; [done|].
        intros ->. apply Ht. by repeat split.
      * by rewrite lookup_insert_ne.
  - exists lc. split; [done|]. split; [done|]. split; [done|].
    intros c l. rewrite decide_False; [done|]. by intros [? _].
Qed.

Lemma apply_intents_wf lc ints :
  Forall wf_emit ints →
  ∃ lc', apply_intents lc ints = (lc', None) ∧
         intent_queue lc' = intent_queue lc ∧
         _grid_summary_cache lc' = _grid_summary_cache lc ∧
         ∀ c l, field_value lc' c l = merge_at c l ints (field_value lc c l).
Proof.
  intros Hwf. revert lc.
  induction Hwf as [|i ints Hi _ IH]; intros lc; simpl.
  - by exists lc.
  - destruct (_apply_intent_wf lc i Hi) as (lc1 & -> & Hq1 & Hc1 & Hf1).
    destruct (IH lc1) as (lc2 & -> & Hq2 & Hc2 & Hf2).
    exists lc2. split; [done|]. split; [congruence|]. split; [congruence|].
    intros c l. rewrite Hf2, Hf1. done.
Qed.

Lemma queued_intents_enqueue lc ints src t :
  queued_intents (enqueue_intents lc ints src t) = queued_intents lc ++ ints.
Proof.
  unfold queued_intents, enqueue_intents. destruct ints as [|i ints].
  - by rewrite app_nil_r.
  - simpl. rewrite map_app, concat_app. simpl. by rewrite app_nil_r.
Qed.

Lemma _apply_intent_raises lc i e :
  _apply_intent lc i = Raise e → e = KeyError ∧ ¬ wf_emit i.
Proof.
  unfold _apply_intent, wf_emit. case_bool_decide as Hn; [|done].
  destruct (pl_coord _) as [c|] eqn:Hc.
  - destruct (pl_label _) as [l|] eqn:Hl; [done|].
    intros [= <-]. split; [done|]. intros Hwf.
    destruct (Hwf Hn) as [_ [l Hl']]. congruence.
  - intros [= <-]. split; [done|]. intros Hwf.
    destruct (Hwf Hn) as [[c Hc'] _]. congruence.
Qed.

Lemma _apply_intent_ok lc i lc' :
  _apply_intent lc i = Ok lc' → wf_emit i.
Proof.
  unfold _apply_intent, wf_emit. intros H Hn.
  rewrite bool_decide_eq_true_2 in H by done.
  destruct (pl_coord _) as [c|]; [|done].
  destruct (pl_label _) as [l|]; [|done]. split; by eexists.
Qed.

Lemma apply_intents_raises lc ints lc' e :
  apply_intents lc ints = (lc', Some e) →
  e = KeyError ∧
  intent_queue lc' = intent_queue lc ∧
  _grid_summary_cache lc' = _grid_summary_cache lc ∧
  ∃ pre i post,
    ints = pre ++ i :: post ∧ Forall wf_emit pre ∧ ¬ wf_emit i ∧
    ∀ c l, field_value lc' c l = merge_at c l pre (field_value lc c l).
Proof.
  revert lc. induction ints as [|i ints IH]; intros lc; simpl; [done|].
  destruct (_apply_intent lc i) as [lc1|x] eqn:Hi.
  - intros Hrest.
    pose proof (_apply_intent_ok _ _ _ Hi) as Hwf.
    destruct (_apply_intent_wf lc i Hwf) as (lc1' & Hi' & Hq & Hc & Hf).
    rewrite Hi in Hi'. injection Hi' as <-.
    destruct (IH lc1 Hrest)
      as (-> & Hq' & Hc' & pre & j & post & -> & Hpre & Hj & Hf').
    split; [done|]. split; [congruence|]. split; [congruence|].
    exists (i :: pre), j, post. split; [done|]. split; [by constructor|].
    split; [done|]. intros c l. rewrite Hf'. simpl. by rewrite Hf.
  - intros [= <- <-]. destruct (_apply_intent_raises _ _ _ Hi) as [-> Hnwf].
    split; [done|]. split; [done|]. split; [done|].
    exists [], i, ints. split; [done|]. split; [constructor|]. done.
Qed.

(** [apply_tick] returns normally only on a queue of intents of the
    documented shape. *)
Lemma apply_intents_returns lc ints lc' :
  apply_intents lc ints = (lc', None) → Forall wf_emit ints.
Proof.
  revert lc. induction ints as [|i ints IH]; intros lc; simpl; [constructor|].
  destruct (_apply_intent lc i) as [lc1|x] eqn:Hi; [|done].
  intros Hrest. constructor.
  - by apply (_apply_intent_ok lc i lc1).
  - by apply (IH lc1).
Qed.

(** C9 (amended): [enqueue_intents] only appends the batch to the queue:
    the field, the summary cache and what [get_grid_summary] returns are as
    before, whatever is queued.  When every queued emit intent has its
    [coord] and its [label], the next [apply_tick] applies every queued
    intent, in order, clears the queue and drops the cache, so each key holds
    its old value plus the amounts of all the intents that name it, and the
    next summary shows exactly that field.  When some queued emit intent
    lacks its [coord] or its [label], the next [apply_tick] raises at the
    first such intent: the intents queued before it are in the field, that
    intent and those after it are not, and the queue is left as it was. *)
Theorem enqueue_defers_apply_commits lc ints src t :
  field (enqueue_intents lc ints src t) = field lc ∧
  _grid_summary_cache (enqueue_intents lc ints src t) = _grid_summary_cache lc ∧
  fst (get_grid_summary (enqueue_intents lc ints src t))
  = fst (get_grid_summary lc) ∧
  queued_intents (enqueue_intents lc ints src t) = queued_intents lc ++ ints ∧
  (Forall wf_emit (queued_intents lc ++ ints) →
   ∀ t', ∃ lc',
     apply_tick (enqueue_intents lc ints src t) t' = (lc', None) ∧
     intent_queue lc' = [] ∧
     (∀ c l, field_value lc' c l
             = merge_at c l (queued_intents lc ++ ints) (field_value lc c l)) ∧
     fst (get_grid_summary lc') = CellSummary <$> field lc') ∧
  (¬ Forall wf_emit (queued_intents lc ++ ints) →
   ∀ t', ∃ lc' e pre i post,
     apply_tick (enqueue_intents lc ints src t) t' = (lc', Some e) ∧
     queued_intents lc ++ ints = pre ++ i :: post ∧
     Forall wf_emit pre ∧ ¬ wf_emit i ∧
     intent_queue lc' = intent_queue (enqueue_intents lc ints src t) ∧
     (∀ c l, field_value lc' c l
             = merge_at c l pre (field_value lc c l))).
Proof.
  assert (field (enqueue_intents lc ints src t) = field lc ∧
          _grid_summary_cache (enqueue_intents lc ints src t)
          = _grid_summary_cache lc) as [Hf Hc].
  { unfold enqueue_intents. by destruct ints. }
  split; [done|]. split; [done|]. split.
  { unfold get_grid_summary. rewrite Hc, Hf.
    by destruct (_grid_summary_cache lc). }
  split; [apply queued_intents_enqueue|]. split.
  - intros Hwf t'. unfold apply_tick.
    rewrite <- queued_intents_enqueue with (src := src) (t := t) in Hwf.
    destruct (apply_intents_wf (enqueue_intents lc ints src t) _ Hwf)
      as (lc1 & -> & _ & _ & Hf1).
    eexists. split; [done|]. split; [done|]. split; [|done].
    intros c l. rewrite queued_intents_enqueue in Hf1.
    specialize (Hf1 c l). unfold field_value in *. simpl.
    by rewrite Hf1, Hf.
  - intros Hnwf t'. unfold apply_tick.
    rewrite <- queued_intents_enqueue with (src := src) (t := t) in Hnwf.
    destruct (apply_intents (enqueue_intents lc ints src t)
                (queued_intents (enqueue_intents lc ints src t)))
      as [lc1 [e|]] eqn:Ha.
    + destruct (apply_intents_raises _ _ _ _ Ha)
        as (_ & Hq & _ & pre & i & post & Hsplit & Hpre & Hi & Hf1).
      rewrite queued_intents_enqueue in Hsplit.
      exists lc1, e, pre, i, post.
      split; [done|]. split; [done|]. split; [done|]. split; [done|].
      split; [done|].
      intros c l. rewrite (Hf1 c l). unfold field_value. by rewrite Hf.
    + exfalso. apply Hnwf. exact (apply_intents_returns _ _ _ Ha).
Qed.

(** C9 at work.  On [demo_center] the committed [1.0] of [A] stays what a
    reader sees while [3.0] and [2.0] wait in the queue, and is [6.0] after
    [apply_tick].  On [demo_partial], whose second intent has no [coord],
    [apply_tick] raises and keeps the queue. *)
Lemma enqueue_defers_apply_commits_witness :
  (field_value demo_center (1, 1)%Z "A" = Some 1%Q ∧
   ∃ lc', apply_tick demo_center (Some 1%Z) = (lc', None) ∧
          intent_queue lc' = [] ∧
          field_value lc' (1, 1)%Z "A" = Some (1 + 3 + 2)%Q ∧
          field_value lc' (2, 2)%Z "B" = Some (0 + 2)%Q) ∧
  ∃ lc' e, apply_tick demo_partial None = (lc', Some e) ∧
           intent_queue lc' = intent_queue demo_partial.
Proof.
  split.
  - split; [vm_compute; reflexivity|].
    destruct (enqueue_defers_apply_commits
                (enqueue_intents demo_committed
                   [emit_label (1, 1)%Z "A" 3; emit_label (2, 2)%Z "B" 2]
                   None (Some 1%Z))
                [emit_label (1, 1)%Z "A" 2] (Some "test"%string) (Some 1%Z))
      as (_ & _ & _ & _ & Happly & _).
    assert (Forall wf_emit
              [emit_label (1, 1)%Z "A" 3; emit_label (2, 2)%Z "B" 2;
               emit_label (1, 1)%Z "A" 2]) as Hwf.
    { constructor; [|constructor; [|constructor; [|constructor]]];
        intros _; split; eexists; reflexivity. }
    destruct (Happly Hwf (Some 1%Z)) as (lc' & Hret & Hq & Hfield & _).
    exists lc'. split; [exact Hret|]. split; [exact Hq|].
    rewrite (Hfield (1, 1)%Z "A"%string), (Hfield (2, 2)%Z "B"%string).
    split; vm_compute; reflexivity.
  - destruct (enqueue_defers_apply_commits new_center
                [emit_label (1, 1)%Z "A" 1;
                 Intent (Some "emit_label"%string)
                   (Some (Payload None (Some "A"%string) (Some 1%Q)));
                 emit_label (2, 2)%Z "B" 1] None (Some 0%Z))
      as (_ & _ & _ & _ & _ & Hfail).
    assert (¬ Forall wf_emit
                (queued_intents new_center
                 ++ [emit_label (1, 1)%Z "A" 1;
                     Intent (Some "emit_label"%string)
                       (Some (Payload None (Some "A"%string) (Some 1%Q)));
                     emit_label (2, 2)%Z "B" 1])) as Hnwf.
    { intros Hall. inversion Hall as [|i1 l1 _ Hrest]; subst.
      inversion Hrest as [|i2 l2 Hbad _]; subst.
      destruct (Hbad eq_refl) as [[c Hc] _]. discriminate Hc. }
    destruct (Hfail Hnwf None) as (lc' & e & _ & _ & _ & Hret & _ & _ & _ & Hq & _).
    exists lc', e. split; [exact Hret | exact Hq].
Defined.

(** C9, counterexample: [apply_tick] is not all-or-nothing.  The one
    batch of [demo_partial] holds three emit intents, the second without
    [coord].  [apply_tick] raises [KeyError] on it: the first intent of the
    batch is in the field, the third is not, and the queue still holds the
    batch, so that a second [apply_tick] applies the first intent once
    more. *)
Lemma apply_tick_partial_commit :
  field_value demo_partial (1, 1)%Z "A" = None ∧
  ∃ lc',
    apply_tick demo_partial (Some 0%Z) = (lc', Some KeyError) ∧
    field_value lc' (1, 1)%Z "A" = Some (0 + 1)%Q ∧
    field_value lc' (2, 2)%Z "B" = None ∧
    intent_queue lc' = intent_queue demo_partial ∧
    ∃ lc'',
      apply_tick lc' (Some 0%Z) = (lc'', Some KeyError) ∧
      field_value lc'' (1, 1)%Z "A" = Some (0 + 1 + 1)%Q.
Proof.
  split; [vm_compute; reflexivity|].
  eexists. split; [vm_compute; reflexivity|].
  split; [vm_compute; reflexivity|]. split; [vm_compute; reflexivity|].
  split; [vm_compute; reflexivity|].
  eexists. split; vm_compute; reflexivity.
Qed.

(** An emit intent without the key [payload] stops [apply_tick] in the
    same way: [intent.get("payload", {})] is the empty dict, which has no
    [coord]. *)
Example apply_tick_malformed_intent :
  ∃ lc', apply_tick
           (enqueue_intents new_center
              [emit_label (1, 1)%Z "A" 1;
               Intent (Some "emit_label"%string) None] None None) None
         = (lc', Some KeyError) ∧
         field_value lc' (1, 1)%Z "A" = Some (0 + 1)%Q ∧
         length (intent_queue lc') = 1%nat.
Proof. eexists. split; [vm_compute; reflexivity|]. split; reflexivity. Qed.

(** ** The decay functions *)

Lemma Rpower_half_lt_1 (x : R) : (0 < x)%R → (Rpower (1 / 2) x < 1)%R.
Proof.
  intros Hx.
  assert (ln (1 / 2) < 0)%R as Hln.
  { rewrite <- ln_1. apply ln_increasing; lra. }
  unfold Rpower. apply (Rlt_le_trans _ (exp 0)); [|rewrite exp_0; lra].
  apply exp_increasing.
  rewrite <- (Rmult_0_r x). by apply Rmult_lt_compat_l.
Qed.

Lemma _decay_mass_elapsed_le_0 m mass dt hl :
  (dt <= 0)%R → _decay_mass m mass dt hl = FloatOk mass.
Proof. intros H. unfold _decay_mass. by destruct (Rle_dec dt 0). Qed.

Lemma _decay_mass_regular m mass dt hl :
  (0 < m)%R → (0 < dt)%R → (m <= hl)%R →
  _decay_mass m mass dt hl = FloatOk (mass * Rpower (1 / 2) (dt / hl))%R.
Proof.
  intros Hm Hdt Hhl. unfold _decay_mass.
  destruct (Rle_dec dt 0); [lra|].
  destruct (Rlt_dec hl m); [lra|].
  destruct (Req_dec_T hl 0); [lra|]. done.
Qed.

Lemma _decay_mass_clamped m mass dt hl :
  (0 < m)%R → (0 < dt)%R → (hl < m)%R →
  _decay_mass m mass dt hl = FloatOk (mass * Rpower (1 / 2) (dt / m))%R.
Proof.
  intros Hm Hdt Hhl. unfold _decay_mass.
  destruct (Rle_dec dt 0); [lra|].
  destruct (Rlt_dec hl m); [|lra].
  destruct (Req_dec_T m 0); [lra|]. done.
Qed.

Lemma _decay_mass_multiple m mass n hl :
  (0 < m)%R → (0 <= n)%R → (m <= hl)%R →
  _decay_mass m mass (n * hl) hl = FloatOk (mass * Rpower (1 / 2) n)%R.
Proof.
  intros Hm Hn Hhl. destruct (Rle_dec (n * hl) 0) as [Hz|Hnz].
  - assert (n = 0)%R as -> by nra.
    rewrite _decay_mass_elapsed_le_0 by lra.
    rewrite Rpower_O by lra. f_equal. ring.
  - rewrite _decay_mass_regular by lra.
    f_equal. f_equal. f_equal. field. lra.
Qed.

(** The field store, whose [decay_rate] is the factor of one tick: [n]
    periods of [h] ticks multiply a value [n] times by [decay_rate ^ h]. *)
Lemma _decay_periods st v last h n :
  (0 < h)%Z → (0 ≤ n)%Z → (0 < decay_rate st)%Q →
  current_tick st = (last + n * h)%Z →
  (_decay st v last == v * (decay_rate st ^ h) ^ n)%Q.
Proof.
  intros Hh Hn Hr Ht.
  destruct (decide (n = 0%Z)) as [->|Hn0].
  - rewrite (proj1 (_decay_cases st v last)) by lia.
    simpl. ring.
  - destruct (_decay_cases st v last) as (_ & _ & Hd).
    rewrite Hd by (done || nia).
    replace (current_tick st - last)%Z with (h * n)%Z by lia.
    by rewrite Qpower_mult.
Qed.

Lemma ln_lt_0 (r : R) : (0 < r < 1)%R → (ln r < 0)%R.
Proof. intros [H0 H1]. rewrite <- ln_1. by apply ln_increasing. Qed.

(** [half_life_of_rate r] is the time in which the factor [r] halves. *)
Lemma half_life_of_rate_halves (r : R) :
  (0 < r < 1)%R →
  (0 < half_life_of_rate r)%R ∧ Rpower r (half_life_of_rate r) = (1 / 2)%R.
Proof.
  intros Hr. pose proof (ln_lt_0 r Hr) as Hlr.
  assert (ln (1 / 2) < 0)%R as Hlh by (apply ln_lt_0; lra).
  unfold half_life_of_rate. split.
  - replace (ln (1 / 2) / ln r)%R with ((- ln (1 / 2)) / (- ln r))%R
      by (field; lra).
    apply Rdiv_lt_0_compat; lra.
  - unfold Rpower.
    replace (ln (1 / 2) / ln r * ln r)%R with (ln (1 / 2)) by (field; lra).
    apply exp_ln. lra.
Qed.

Lemma Rpower_rate (r x : R) :
  (0 < r < 1)%R → Rpower r x = Rpower (1 / 2) (x / half_life_of_rate r).
Proof.
  intros Hr. pose proof (ln_lt_0 r Hr) as Hlr.
  assert (ln (1 / 2) < 0)%R as Hlh by (apply ln_lt_0; lra).
  unfold Rpower, half_life_of_rate. f_equal. field. lra.
Qed.

(** The decay of the field store is the half-life law, for the half-life
    its [decay_rate] stands for. *)
Lemma _decay_reference st v last :
  (0 < decay_rate st)%Q → (decay_rate st < 1)%Q →
  (last < current_tick st)%Z →
  Q2R (_decay st v last)
  = (Q2R v * Rpower (1 / 2)
               (IZR (current_tick st - last)
                / half_life_of_rate (Q2R (decay_rate st))))%R.
Proof.
  intros H0 H1 Ht.
  assert (0 < Q2R (decay_rate st) < 1)%R as Hr.
  { split.
    - rewrite <- RMicromega.Q2R_0. by apply Qlt_Rlt.
    - rewrite <- RMicromega.Q2R_1. by apply Qlt_Rlt. }
  rewrite (proj2 (proj2 (_decay_cases st v last)) Ht H0).
  rewrite Q2R_mult. f_equal.
  rewrite RMicromega.Q2RpowerRZ by (right; lia).
  rewrite powerRZ_Rpower by lra.
  by apply Rpower_rate.
Qed.

(** C4, counterexample: with the default [min_half_life], a half-life of
    [0] does not leave the value unchanged in [_decay_mass]: the half-life
    is raised to [min_half_life] and the mass [1.0] shrinks after one
    tick. *)
Lemma _decay_mass_zero_half_life_decays :
  ∃ x, _decay_mass default_min_half_life 1 1 0 = FloatOk x ∧ (x < 1)%R.
Proof.
  unfold default_min_half_life. eexists. split.
  - apply _decay_mass_clamped; lra.
  - rewrite Rmult_1_l. apply Rpower_half_lt_1.
    apply Rdiv_lt_0_compat; lra.
Qed.

(** C4 (amended): with a positive [min_half_life], [_decay_mass] returns
    the value unchanged when the elapsed time is not positive; for a positive
    elapsed time it returns [value * 0.5^(elapsed / h)] where [h] is the
    half-life, raised to [min_half_life] when it is below it: a half-life
    [<= 0] decays with [min_half_life], it is not the non-decaying case.
    Hence for every [n >= 0] and every half-life [>= min_half_life],
    [decay(value, n * half_life, half_life) = value * 0.5^n].  The field
    store has a factor per tick in place of a half-life: [_decay] leaves
    the value unchanged when the clock has not advanced or when
    [decay_rate <= 0], and returns
    [value * decay_rate^(current_tick - last_tick)] otherwise, which is
    [value * (decay_rate^h)^n] after [n * h] ticks, and which for
    [0 < decay_rate < 1] is the same law [value * 0.5^(elapsed / h)] with
    the half-life [h = ln 0.5 / ln decay_rate]. *)
Theorem decay_half_life_law (m : R) :
  (0 < m)%R →
  (∀ mass dt hl, (dt <= 0)%R → _decay_mass m mass dt hl = FloatOk mass) ∧
  (∀ mass dt hl, (0 < dt)%R → (m <= hl)%R →
     _decay_mass m mass dt hl = FloatOk (mass * Rpower (1 / 2) (dt / hl))%R) ∧
  (∀ mass dt hl, (0 < dt)%R → (hl < m)%R →
     _decay_mass m mass dt hl = FloatOk (mass * Rpower (1 / 2) (dt / m))%R) ∧
  (∀ mass n hl, (0 <= n)%R → (m <= hl)%R →
     _decay_mass m mass (n * hl) hl = FloatOk (mass * Rpower (1 / 2) n)%R) ∧
  (∀ mass (k : nat) hl, (m <= hl)%R →
     _decay_mass m mass (INR k * hl) hl = FloatOk (mass * (1 / 2) ^ k)%R) ∧
  (∀ st v last,
     (current_tick st ≤ last)%Z ∨ (decay_rate st <= 0)%Q →
     _decay st v last = v) ∧
  (∀ st v last,
     (last < current_tick st)%Z → (0 < decay_rate st)%Q →
     _decay st v last = (v * decay_rate st ^ (current_tick st - last))%Q) ∧
  (∀ st v last h n,
     (0 < h)%Z → (0 ≤ n)%Z → (0 < decay_rate st)%Q →
     current_tick st = (last + n * h)%Z →
     (_decay st v last == v * (decay_rate st ^ h) ^ n)%Q) ∧
  (∀ st v last,
     (0 < decay_rate st)%Q → (decay_rate st < 1)%Q →
     (last < current_tick st)%Z →
     (0 < half_life_of_rate (Q2R (decay_rate st)))%R ∧
     Rpower (Q2R (decay_rate st)) (half_life_of_rate (Q2R (decay_rate st)))
     = (1 / 2)%R ∧
     Q2R (_decay st v last)
     = (Q2R v * Rpower (1 / 2)
                  (IZR (current_tick st - last)
                   / half_life_of_rate (Q2R (decay_rate st))))%R).
Proof.
  intros Hm.
  split; [|split; [|split; [|split; [|split; [|split; [|split; [|split]]]]]]].
  - intros mass dt hl. apply _decay_mass_elapsed_le_0.
  - intros mass dt hl. by apply _decay_mass_regular.
  - intros mass dt hl. by apply _decay_mass_clamped.
  - intros mass n hl. by apply _decay_mass_multiple.
  - intros mass k hl Hhl.
    rewrite _decay_mass_multiple by (done || apply pos_INR).
    rewrite Rpower_pow by lra. done.
  - intros st v last [H|H].
    + by apply (proj1 (_decay_cases st v last)).
    + by apply (proj1 (proj2 (_decay_cases st v last))).
  - intros st v last. apply (proj2 (proj2 (_decay_cases st v last))).
  - intros st v last h n. apply _decay_periods.
  - intros st v last H0 H1 Ht.
    assert (0 < Q2R (decay_rate st) < 1)%R as Hr.
    { split.
      - rewrite <- RMicromega.Q2R_0. by apply Qlt_Rlt.
      - rewrite <- RMicromega.Q2R_1. by apply Qlt_Rlt. }
    destruct (half_life_of_rate_halves _ Hr) as [Hpos Hhalf].
    split; [done|]. split; [done|]. by apply _decay_reference.
Qed.

(** The amended C4 at work.  With the default [min_half_life], a mass of
    [8.0] with half-life [8] is [8 * 0.5] after [8] ticks.  In a field store
    with [decay_rate = 0.5], a value of [4.0] settled at tick 0 reads
    [4 * 0.5^2] at tick 2; the same store has half-life 1, so that two
    ticks are two periods of one tick. *)
Lemma decay_half_life_law_witness :
  _decay_mass default_min_half_life 8 (INR 1 * 8) 8
  = FloatOk (8 * (1 / 2) ^ 1)%R ∧
  _decay (advance_tick (init (1 # 2) 0 0) 2) 4 0 = (4 * (1 # 2) ^ 2)%Q ∧
  (_decay (advance_tick (init (1 # 2) 0 0) 2) 4 0
   == 4 * ((1 # 2) ^ 1) ^ 2)%Q ∧
  Rpower (Q2R (1 # 2)) (half_life_of_rate (Q2R (1 # 2))) = (1 / 2)%R.
Proof.
  assert (0 < default_min_half_life)%R as Hm
    by (unfold default_min_half_life; lra).
  destruct (decay_half_life_law default_min_half_life Hm)
    as (_ & _ & _ & _ & Hk & _ & Hclosed & Hperiods & Href).
  split; [|split; [|split]].
  - apply Hk. unfold default_min_half_life. lra.
  - apply (Hclosed (advance_tick (init (1 # 2) 0 0) 2) 4%Q 0%Z); reflexivity.
  - apply (Hperiods (advance_tick (init (1 # 2) 0 0) 2) 4%Q 0%Z 1%Z 2%Z);
      reflexivity || discriminate.
  - apply (Href (advance_tick (init (1 # 2) 0 0) 2) 4%Q 0%Z); reflexivity.
Defined.

(** ** The unit tests of the repository, replayed on the embedding *)

(** [test_step5_2_label_decay_over_time] *)
Example test_step5_2_label_decay :
  let lc := consume_intents (init (1 # 2) 0 0) [emit_label (1, 1)%Z "PMHC" 4] in
  (get_label lc (1, 1)%Z "PMHC" == 4)%Q ∧
  (get_label (advance_tick lc 1) (1, 1)%Z "PMHC" == 2)%Q ∧
  (get_label (advance_tick (advance_tick lc 1) 2) (1, 1)%Z "PMHC" == 1)%Q.
Proof. repeat split. Qed.

(** [test_released_label_has_claim_cooldown] (step 5.7) *)
Example test_step5_7_claim_cooldown :
  let lc0 := consume_intents (init 1 2 0) [emit_label (0, 0)%Z "antigen" 10] in
  let lc1 := advance_tick lc0 1 in
  let lc1' := exec lc1 (Claim (0, 0)%Z "antigen" "percell_A") in
  let lc2 := exec (advance_tick lc1' 2) (Release (0, 0)%Z "antigen" "percell_A") in
  let lc3 := advance_tick lc2 3 in
  let lc4 := advance_tick lc3 4 in
  fst <$> (match claim_label lc1 (0, 0)%Z "antigen" "percell_A" with
           | Ok r => Some r | Raise _ => None end) = Some true ∧
  claim_label lc3 (0, 0)%Z "antigen" "percell_B" = Ok (false, lc3) ∧
  fst <$> (match claim_label lc4 (0, 0)%Z "antigen" "percell_B" with
           | Ok r => Some r | Raise _ => None end) = Some true.
Proof. repeat split. Qed.

(** [test_field_label_pruned_when_too_small] (step 5.8) *)
Example test_step5_8_field_label_prune :
  let lc := consume_intents (init (1 # 2) 0 (2 # 10))
              [emit_label (0, 0)%Z "antigen" 1] in
  let lc3 := prune (advance_tick (advance_tick (advance_tick lc 1) 2) 3) in
  get_label lc3 (0, 0)%Z "antigen" = 0%Q ∧ label_field lc3 = ∅.
Proof. split; vm_compute; reflexivity. Qed.

(** [test_field_label_merge_on_emit] (step 5.9) *)
Example test_step5_9_field_label_merge :
  let lc := consume_intents (init 0 0 0) [emit_label (1, 1)%Z "antigen" 2] in
  let lc1 := consume_intents (advance_tick lc 1)
               [emit_label (1, 1)%Z "antigen" 3] in
  (get_label lc1 (1, 1)%Z "antigen" == 5)%Q.
Proof. reflexivity. Qed.

(** [test_emit_label_works_after_release] (step 5.11) *)
Example test_step5_11_emit_works_after_release :
  let lc := consume_intents (init 1 0 0) [emit_label (0, 0)%Z "antigen" 5] in
  let lc1 := exec (advance_tick lc 1) (Claim (0, 0)%Z "antigen" "percell_A") in
  let lc2 := consume_intents (advance_tick lc1 2)
               [emit_label (0, 0)%Z "antigen" 10] in
  let lc3 := exec (advance_tick lc2 3)
               (Release (0, 0)%Z "antigen" "percell_A") in
  let lc4 := consume_intents (advance_tick lc3 4)
               [emit_label (0, 0)%Z "antigen" 2] in
  (get_label lc2 (0, 0)%Z "antigen" == 5)%Q ∧
  (get_label lc4 (0, 0)%Z "antigen" == 7)%Q.
Proof. split; reflexivity. Qed.

(** [test_step5_12_writes_invisible_before_apply] and
    [test_step3_3_label_center_apply_emit_label] *)
Example test_step5_12_writes_invisible_before_apply :
  let lc := enqueue_intents new_center [emit_label (1, 1)%Z "hotspot" 1]
              (Some "test"%string) (Some 0%Z) in
  fst (get_grid_summary lc) = ∅ ∧
  field_value (fst (apply_tick lc (Some 1%Z))) (1, 1)%Z "hotspot"
  = Some (0 + 1)%Q ∧
  intent_queue (fst (apply_tick lc (Some 1%Z))) = [].
Proof. repeat split; vm_compute; reflexivity. Qed.

(** * Further properties of [LabelCenterBase] *)

(** ** Releasing *)

(** X1: [release_label] raises [KeyError] when the key has no entry and
    [ValueError] when the entry is not owned by the caller (free, or owned
    by somebody else); otherwise it succeeds, frees the entry, starts the
    cooldown, and changes nothing else in the store. *)
Theorem release_label_outcomes st c l by_ :
  (lookup_entry st c l = None → release_label st c l by_ = Raise KeyError) ∧
  (∀ e, lookup_entry st c l = Some e →
     (owned_by e ≠ Some by_ → release_label st c l by_ = Raise ValueError) ∧
     (owned_by e = Some by_ →
      ∃ st', release_label st c l by_ = Ok st' ∧
             lookup_entry st' c l
             = Some (Entry (value e) (last_tick e) None
                       (Some (current_tick st + claim_cooldown st)%Z)) ∧
             (∀ c' l', (c', l') ≠ (c, l) →
                       lookup_entry st' c' l' = lookup_entry st c' l') ∧
             same_clock st st')).
Proof.
  unfold release_label. split.
  - by intros ->.
  - intros e ->. split.
    + intros Hne. by rewrite bool_decide_eq_false_2.
    + intros Ho. rewrite bool_decide_eq_true_2 by done.
      eexists. split; [done|]. split; [apply lookup_entry_store_entry_eq|].
      split; [|done]. intros c' l' Hne. by apply lookup_entry_store_entry_ne.
Qed.

(** X1 at work: a rival's release of [demo_claimed] raises, the owner's
    succeeds. *)
Lemma release_label_outcomes_witness :
  release_label demo_claimed (0, 0)%Z "antigen" "percell_B" = Raise ValueError ∧
  ∃ st', release_label demo_claimed (0, 0)%Z "antigen" "percell_A" = Ok st' ∧
         lookup_entry st' (0, 0)%Z "antigen" = Some (Entry 4 0 None (Some 3%Z)).
Proof.
  destruct (proj2 (release_label_outcomes demo_claimed (0, 0)%Z "antigen"
                     "percell_B")
              (Entry 4 0 (Some "percell_A"%string) None) eq_refl) as [Hrival _].
  destruct (proj2 (release_label_outcomes demo_claimed (0, 0)%Z "antigen"
                     "percell_A")
              (Entry 4 0 (Some "percell_A"%string) None) eq_refl) as [_ Hown].
  split; [apply Hrival; discriminate|].
  destruct (Hown eq_refl) as (st' & Hr & Hl & _).
  exists st'. split; [exact Hr | exact Hl].
Defined.

(** ** Exclusivity *)

(** X2: once a claim has succeeded, every later claim of the same key,
    by anyone and also by the owner itself, returns [False] and the owner
    stays who it is, whatever calls happen in between, until the owner's
    own release. *)
Theorem claim_is_exclusive st c l owner st1 ops rival :
  claim_label st c l owner = Ok (true, st1) →
  Forall (λ o, o ≠ Release c l owner) ops →
  claim_label (run st1 ops) c l rival = Ok (false, run st1 ops) ∧
  owned_by <$> lookup_entry (run st1 ops) c l = Some (Some owner).
Proof.
  intros Hc Hops.
  destruct (lookup_entry st c l) as [e|] eqn:He.
  2: { unfold claim_label in Hc. by rewrite He in Hc. }
  destruct (claim_label_true_inv _ _ _ _ _ _ He Hc) as [_ ->].
  pose proof (run_owned (store_entry st c l (with_owner e (Some owner))) ops c l
                (with_owner e (Some owner)) owner
                (lookup_entry_store_entry_eq _ _ _ _) eq_refl Hops) as Hheld.
  split.
  - unfold claim_label. by rewrite Hheld.
  - by rewrite Hheld.
Qed.

(** X2 at work: [percell_A] holds the key of [demo_claimed]; after a tick,
    an emit and a prune both a rival and the owner are refused. *)
Lemma claim_is_exclusive_witness :
  claim_label (run demo_claimed [AdvanceTick 7; Prune]) (0, 0)%Z "antigen"
    "percell_B" = Ok (false, run demo_claimed [AdvanceTick 7; Prune]) ∧
  claim_label (run demo_claimed [AdvanceTick 7; Prune]) (0, 0)%Z "antigen"
    "percell_A" = Ok (false, run demo_claimed [AdvanceTick 7; Prune]).
Proof.
  split.
  - apply (claim_is_exclusive (advance_tick demo_store 1) (0, 0)%Z "antigen"
             "percell_A" demo_claimed [AdvanceTick 7; Prune] "percell_B").
    + reflexivity.
    + repeat constructor; discriminate.
  - apply (claim_is_exclusive (advance_tick demo_store 1) (0, 0)%Z "antigen"
             "percell_A" demo_claimed [AdvanceTick 7; Prune] "percell_A").
    + reflexivity.
    + repeat constructor; discriminate.
Defined.

(** ** Emits *)

Lemma _consume_intent_keeps_ownership st i c l e :
  lookup_entry st c l = Some e →
  ∃ e', lookup_entry (_consume_intent st i) c l = Some e' ∧
        owned_by e' = owned_by e ∧ cooldown_until e' = cooldown_until e.
Proof.
  intros He. destruct (decide (targets i c l)) as [Ht|Ht].
  - rewrite (_consume_intent_target st i c l Ht), He.
    destruct (owned_by e) eqn:Ho.
    + by exists e.
    + eexists. split; [apply lookup_entry_store_entry_eq|]. done.
  - exists e. by rewrite _consume_intent_other.
Qed.

(** X3: emits never delete an entry and never touch ownership: every
    entry that exists before [consume_intents] still exists afterwards with
    the same [owned_by] and the same [cooldown_until]. *)
Theorem consume_intents_keeps_ownership st ints c l e :
  lookup_entry st c l = Some e →
  ∃ e', lookup_entry (consume_intents st ints) c l = Some e' ∧
        owned_by e' = owned_by e ∧ cooldown_until e' = cooldown_until e.
Proof.
  unfold consume_intents. revert st e.
  induction ints as [|i ints IH]; intros st e He; simpl.
  - by exists e.
  - destruct (_consume_intent_keeps_ownership st i c l e He) as (e1 & He1 & Ho1 & Hc1).
    destruct (IH _ e1 He1) as (e2 & He2 & Ho2 & Hc2).
    exists e2. split; [done|]. split; congruence.
Qed.

(** X3 at work: an emit on the cooling entry of [demo_released] keeps it
    free and keeps its cooldown. *)
Lemma consume_intents_keeps_ownership_witness :
  ∃ e', lookup_entry
          (consume_intents demo_released [emit_label (0, 0)%Z "antigen" 10])
          (0, 0)%Z "antigen" = Some e' ∧
        owned_by e' = None ∧ cooldown_until e' = Some 3%Z.
Proof.
  exact (consume_intents_keeps_ownership demo_released
           [emit_label (0, 0)%Z "antigen" 10] (0, 0)%Z "antigen"
           (Entry 4 0 None (Some 3%Z)) eq_refl).
Defined.

Lemma _consume_intent_incomplete st i :
  ¬ complete_emit i → _consume_intent st i = st.
Proof.
  intros Hi. unfold _consume_intent. case_bool_decide as Hn; [|done].
  destruct (pl_coord _) as [c|] eqn:Hc.
  - destruct (pl_label _) as [l|] eqn:Hl; [|done].
    exfalso. apply Hi. unfold complete_emit. rewrite Hc, Hl. by repeat split.
  - by destruct (pl_label (default empty_payload (intent_payload i))).
Qed.

(** X4: [consume_intents] skips the intents it cannot place: an intent
    whose name is not [emit_label], or that has no [payload], or whose
    payload has no [coord] or no [label] (absent, or bound to [None]), is
    passed over.  A batch has the effect of its emit intents with coordinate
    and label alone, and a batch without any leaves the store exactly as it
    was. *)
Theorem consume_intents_skips_incomplete st ints :
  consume_intents st ints = consume_intents st (filter complete_emit ints) ∧
  (Forall (λ i, ¬ complete_emit i) ints → consume_intents st ints = st).
Proof.
  unfold consume_intents. split.
  - revert st. induction ints as [|i ints IH]; intros st; simpl; [done|].
    rewrite filter_cons. destruct (decide (complete_emit i)) as [Hi|Hi]; simpl.
    + apply IH.
    + rewrite (_consume_intent_incomplete st i Hi). apply IH.
  - intros Hints. revert st.
    induction Hints as [|i ints Hi _ IH]; intros st; simpl; [done|].
    rewrite (_consume_intent_incomplete st i Hi). apply IH.
Qed.

(** X4 at work: an intent of another name, an emit without the key
    [payload] and an emit without label are passed over, alone and around a
    complete emit. *)
Lemma consume_intents_skips_incomplete_witness :
  consume_intents demo_store
    [Intent (Some "move"%string)
       (Some (Payload (Some (0, 0)%Z) (Some "antigen"%string) (Some 1%Q)));
     Intent (Some "emit_label"%string) None;
     Intent (Some "emit_label"%string)
       (Some (Payload (Some (0, 0)%Z) None (Some 1%Q)))]
  = demo_store ∧
  consume_intents demo_store
    [Intent (Some "move"%string)
       (Some (Payload (Some (0, 0)%Z) (Some "antigen"%string) (Some 1%Q)));
     emit_label (2, 2)%Z "antigen" 1;
     Intent (Some "emit_label"%string) None]
  = consume_intents demo_store [emit_label (2, 2)%Z "antigen" 1].
Proof.
  split.
  - apply consume_intents_skips_incomplete.
    repeat constructor; intros (Hn & [c Hc] & [l Hl]); discriminate.
  - apply (proj1 (consume_intents_skips_incomplete demo_store
                    [Intent (Some "move"%string)
                       (Some (Payload (Some (0, 0)%Z) (Some "antigen"%string)
                                (Some 1%Q)));
                     emit_label (2, 2)%Z "antigen" 1;
                     Intent (Some "emit_label"%string) None])).
Defined.

(** X5: the cooldown blocks claims, not writes.  An emit that arrives
    on a released entry while its cooldown is pending is merged like on any
    free entry: the value is settled to the current tick, the amount is
    added, and the cooldown stays. *)
Theorem emit_during_cooldown_is_merged st c l by_ st' i :
  release_label st c l by_ = Ok st' → targets i c l →
  ∃ e, lookup_entry st c l = Some e ∧
       lookup_entry (_consume_intent st' i) c l
       = Some (Entry (_decay st (value e) (last_tick e) + intent_amount i)%Q
                 (current_tick st) None
                 (Some (current_tick st + claim_cooldown st)%Z)).
Proof.
  intros Hr Ht.
  destruct (lookup_entry st c l) as [e|] eqn:He.
  2: { unfold release_label in Hr. by rewrite He in Hr. }
  destruct (release_label_inv _ _ _ _ _ _ He Hr) as [_ ->].
  exists e. split; [done|].
  rewrite (_consume_intent_target _ i c l Ht).
  rewrite lookup_entry_store_entry_eq. simpl.
  by rewrite lookup_entry_store_entry_eq.
Qed.

(** X5 at work: [10.0] emitted on [demo_released] in the tick of the
    release; the stored value is [4 * 0.5 + 10]. *)
Lemma emit_during_cooldown_is_merged_witness :
  ∃ e, lookup_entry demo_claimed (0, 0)%Z "antigen" = Some e ∧
       lookup_entry
         (_consume_intent demo_released (emit_label (0, 0)%Z "antigen" 10))
         (0, 0)%Z "antigen"
       = Some (Entry (_decay demo_claimed (value e) (last_tick e)
                      + intent_amount (emit_label (0, 0)%Z "antigen" 10))%Q
                 1 None (Some 3%Z)).
Proof.
  apply (emit_during_cooldown_is_merged demo_claimed (0, 0)%Z "antigen"
           "percell_A" demo_released (emit_label (0, 0)%Z "antigen" 10)).
  - reflexivity.
  - repeat split.
Defined.

(** ** Pruning and reading *)

Lemma prune_entry_fixed st e e' :
  prune_entry st e = Some e' → prune_entry (prune st) e' = Some e'.
Proof.
  unfold prune_entry. destruct (owned_by e) eqn:Ho.
  - intros [= <-]. by rewrite Ho.
  - destruct (Qltb _ _) eqn:Hb; [done|]. intros [= <-]. simpl.
    rewrite (proj1 (_decay_cases (prune st) _ (current_tick st)))
      by (simpl; lia).
    simpl. by rewrite Hb.
Qed.

(** X6: [prune] is invisible to readers: for every key, [get_label]
    returns after [prune] exactly what it returned before, whether the
    entry was kept, settled or deleted. *)
Theorem prune_invisible_to_readers st c l :
  get_label (prune st) c l = get_label st c l.
Proof.
  unfold get_label. rewrite lookup_entry_prune.
  destruct (lookup_entry st c l) as [e|]; [|done]. simpl.
  unfold prune_entry. destruct (owned_by e) eqn:Ho.
  - by rewrite Ho.
  - destruct (Qltb _ _) eqn:Hb; [done|]. simpl.
    rewrite (proj1 (_decay_cases (prune st) _ (current_tick st)))
      by (simpl; lia).
    by rewrite Hb.
Qed.

(** Two stores whose label maps have no empty bucket and hold the same
    entries have the same label map. *)
Lemma label_field_ext (m1 m2 : gmap Coord (gmap string entry)) :
  (∀ c, m1 !! c ≠ Some ∅) → (∀ c, m2 !! c ≠ Some ∅) →
  (∀ c l, default ∅ (m1 !! c) !! l = default ∅ (m2 !! c) !! l) →
  m1 = m2.
Proof.
  intros H1 H2 Heq. apply map_eq. intros c.
  specialize (H1 c). specialize (H2 c).
  assert (default ∅ (m1 !! c) = default ∅ (m2 !! c)) as Hb
    by (apply map_eq; intros l; apply Heq).
  destruct (m1 !! c) as [b1|], (m2 !! c) as [b2|]; simpl in Hb;
    congruence.
Qed.

Lemma store_ext (a b : LabelCenterBase) :
  same_clock a b → label_field b = label_field a → b = a.
Proof.
  destruct a, b. unfold same_clock. simpl. intros (-> & -> & -> & ->) ->. done.
Qed.

(** X7: [prune] is idempotent: a second [prune] in the same tick changes
    nothing. *)
Theorem prune_idempotent st : prune (prune st) = prune st.
Proof.
  assert (label_field (prune (prune st)) = label_field (prune st)) as Hf.
  { apply label_field_ext; try apply prune_no_empty_bucket.
    intros c l.
    change (lookup_entry (prune (prune st)) c l = lookup_entry (prune st) c l).
    rewrite (lookup_entry_prune (prune st)).
    destruct (lookup_entry (prune st) c l) as [e'|] eqn:He'; [|done].
    simpl. rewrite lookup_entry_prune in He'.
    destruct (lookup_entry st c l) as [e|]; [|done]. simpl in He'.
    by apply (prune_entry_fixed st e). }
  by apply store_ext.
Qed.

(** X13: after [prune] every free entry is settled at the current tick
    and holds a value that is not below [prune_threshold], so it reads as
    its stored value. *)
Theorem prune_leaves_perceptible st c l e :
  lookup_entry (prune st) c l = Some e → owned_by e = None →
  last_tick e = current_tick st ∧
  (prune_threshold st <= value e)%Q ∧
  get_label (prune st) c l = value e.
Proof.
  intros He Ho.
  assert (last_tick e = current_tick st ∧ (prune_threshold st <= value e)%Q)
    as [Ht Hv].
  { rewrite lookup_entry_prune in He.
    destruct (lookup_entry st c l) as [e0|]; [|done]. simpl in He.
    unfold prune_entry in He. destruct (owned_by e0) eqn:Ho0.
    - injection He as <-. congruence.
    - destruct (Qltb _ _) eqn:Hb; [done|]. injection He as <-. simpl.
      split; [done|]. by apply Qltb_ge. }
  split; [done|]. split; [done|].
  rewrite (get_label_free _ c l e He Ho).
  rewrite (proj1 (_decay_cases (prune st) (value e) (last_tick e)))
    by (simpl; lia).
  simpl. by rewrite (proj2 (Qltb_ge _ _) Hv).
Qed.

(** X13 at work: at tick 2 the entry of [demo_store] survives [prune],
    settled to [4 * 0.5^2]. *)
Lemma prune_leaves_perceptible_witness :
  get_label (prune (advance_tick demo_store 2)) (0, 0)%Z "antigen"
  = value (Entry (4 * (1 # 2) ^ 2) 2 None None).
Proof.
  apply (prune_leaves_perceptible (advance_tick demo_store 2) (0, 0)%Z
           "antigen" (Entry (4 * (1 # 2) ^ 2) 2 None None)); reflexivity.
Defined.

Lemma lookup_entry_prune_shadowed st c l :
  lookup_entry (prune_shadowed st) c l
  = lookup_entry st c l ≫= prune_entry_shadowed st.
Proof.
  unfold lookup_entry, prune_shadowed. simpl. rewrite lookup_omap.
  destruct (label_field st !! c) as [b|] eqn:Hb; simpl.
  - case_bool_decide as Hemp; simpl.
    + rewrite lookup_empty.
      rewrite <- (lookup_omap (prune_entry_shadowed st) b l).
      by rewrite Hemp, lookup_empty.
    + apply lookup_omap.
  - by rewrite lookup_empty.
Qed.

(** X8: the first [prune] of the class body, which the second one
    replaces, deletes exactly the same keys as the effective one and is
    invisible to readers too: right after it [get_label] returns for every
    key what it returned before.  The two definitions differ only in what
    they store for the entries they keep. *)
Theorem prune_definitions_agree st c l :
  (lookup_entry (prune_shadowed st) c l = None
   ↔ lookup_entry (prune st) c l = None) ∧
  get_label (prune_shadowed st) c l = get_label st c l.
Proof.
  unfold get_label.
  rewrite lookup_entry_prune_shadowed, lookup_entry_prune.
  destruct (lookup_entry st c l) as [e|]; [|done]. simpl.
  unfold prune_entry_shadowed, prune_entry.
  destruct (owned_by e) eqn:Ho.
  - split; [done|]. by rewrite Ho.
  - destruct (Qltb _ _) eqn:Hb; [done|]. split; [done|].
    rewrite Ho.
    change (_decay (prune_shadowed st)) with (_decay st).
    change (prune_threshold (prune_shadowed st)) with (prune_threshold st).
    by rewrite Hb.
Qed.

Lemma Qpower_le_1 (q : Q) (n : Z) :
  (0 <= q)%Q → (q <= 1)%Q → (0 ≤ n)%Z → (q ^ n <= 1)%Q.
Proof.
  intros H0 H1 Hn. revert n Hn. apply natlike_ind.
  - simpl. apply Qle_refl.
  - intros n Hn IH. unfold Z.succ.
    rewrite Qpower_plus' by lia. rewrite Qpower_1_r.
    rewrite <- (Qmult_1_r 1).
    apply Qle_trans with (1 * q)%Q.
    + apply Qmult_le_compat_r; [exact IH | exact H0].
    + rewrite !Qmult_1_l. exact H1.
Qed.

(** X12: with a [decay_rate] of at most [1], a read never exceeds the
    stored value and is never negative for a non-negative stored value. *)
Theorem get_label_bounded st c l e :
  lookup_entry st c l = Some e → (0 <= value e)%Q → (decay_rate st <= 1)%Q →
  (0 <= get_label st c l)%Q ∧ (get_label st c l <= value e)%Q.
Proof.
  intros He Hv Hr. unfold get_label. rewrite He.
  destruct (owned_by e); [split; [done|apply Qle_refl]|].
  assert (_decay st (value e) (last_tick e) <= value e)%Q as Hle.
  { unfold _decay.
    destruct (current_tick st - last_tick e <=? 0)%Z eqn:Hdt; [apply Qle_refl|].
    destruct (Qle_bool (decay_rate st) 0) eqn:Hb; [apply Qle_refl|].
    assert (0 < decay_rate st)%Q as Hpos.
    { apply Qnot_le_lt. intros Hle. apply Qle_bool_iff in Hle. congruence. }
    apply Z.leb_gt in Hdt.
    assert (decay_rate st ^ (current_tick st - last_tick e) <= 1)%Q as Hp.
    { apply Qpower_le_1; [by apply Qlt_le_weak | done | lia]. }
    rewrite <- (Qmult_1_r (value e)) at 2.
    rewrite !(Qmult_comm (value e)).
    by apply Qmult_le_compat_r. }
  destruct (Qltb _ _); [split; [apply Qle_refl | done]|]. split; [|done].
  by apply _decay_nonneg.
Qed.

(** X12 at work on [demo_store], five ticks after the emit. *)
Lemma get_label_bounded_witness :
  (0 <= get_label (advance_tick demo_store 5) (0, 0)%Z "antigen")%Q ∧
  (get_label (advance_tick demo_store 5) (0, 0)%Z "antigen" <= 4)%Q.
Proof.
  apply (get_label_bounded (advance_tick demo_store 5) (0, 0)%Z "antigen"
           (Entry 4 0 None None)).
  - reflexivity.
  - vm_compute. discriminate.
  - vm_compute. discriminate.
Defined.

(** ** The clock *)

(** X9: [advance_tick] sets the clock to the larger of the current tick
    and its argument and touches nothing else, so two calls in a row amount
    to one call with the larger argument. *)
Theorem advance_tick_is_max st t :
  advance_tick st t = set_current_tick st (Z.max (current_tick st) t) ∧
  ∀ t', advance_tick (advance_tick st t) t' = advance_tick st (Z.max t t').
Proof.
  assert (∀ s u, advance_tick s u = set_current_tick s (Z.max (current_tick s) u))
    as Hmax.
  { intros s u. unfold advance_tick.
    destruct (Z.ltb_spec u (current_tick s)).
    - rewrite Z.max_l by lia. by destruct s.
    - by rewrite Z.max_r by lia. }
  split; [apply Hmax|].
  intros t'. rewrite !Hmax. unfold set_current_tick. simpl.
  by rewrite Z.max_assoc.
Qed.

Lemma exec_forward st o :
  forward_op o → (current_tick st ≤ current_tick (exec st o))%Z.
Proof.
  intros Ho. apply exec_clock_monotone. intros step ->. exact Ho.
Qed.

(** X10: as long as [tick] is never called with a negative step, the
    clock never goes back: after any sequence of calls it is at least what
    it was. *)
Theorem clock_never_goes_back st ops :
  Forall forward_op ops → (current_tick st ≤ current_tick (run st ops))%Z.
Proof.
  unfold run. intros Hops. revert st.
  induction Hops as [|o ops Ho _ IH]; intros st; simpl; [lia|].
  pose proof (exec_forward st o Ho). specialize (IH (exec st o)). lia.
Qed.

(** X10 at work: an earlier [advance_tick], a [tick] and a release that
    raises do not put the clock of [demo_claimed] back. *)
Lemma clock_never_goes_back_witness :
  (current_tick demo_claimed
   ≤ current_tick
       (run demo_claimed
          [AdvanceTick 0; Tick 2; Release (0, 0)%Z "antigen" "percell_B";
           Prune]))%Z.
Proof.
  apply clock_never_goes_back.
  repeat constructor; simpl; lia.
Defined.

(** X11: the configuration is fixed by the constructor: no sequence of
    calls changes [decay_rate], [claim_cooldown] or [prune_threshold]. *)
Theorem configuration_is_fixed rate cooldown threshold ops :
  decay_rate (run (init rate cooldown threshold) ops) = rate ∧
  claim_cooldown (run (init rate cooldown threshold) ops) = cooldown ∧
  prune_threshold (run (init rate cooldown threshold) ops) = threshold.
Proof.
  unfold run.
  assert (∀ st, decay_rate (foldl exec st ops) = decay_rate st ∧
                claim_cooldown (foldl exec st ops) = claim_cooldown st ∧
                prune_threshold (foldl exec st ops) = prune_threshold st) as H.
  { induction ops as [|o ops IH]; intros st; simpl; [done|].
    destruct (IH (exec st o)) as (H1 & H2 & H3).
    destruct (exec_config st o) as (H1' & H2' & H3').
    rewrite H1, H2, H3. done. }
  apply (H (init rate cooldown threshold)).
Qed.

Lemma exec_settled_in_past st o :
  settled_in_past st → forward_op o → settled_in_past (exec st o).
Proof.
  intros Hst Ho.
  pose proof (exec_forward st o Ho) as Hclock.
  destruct o as [ints|t|step|c' l'|c' l' by_|c' m lt|c' l' by_|]; simpl in *.
  - clear Ho Hclock. unfold consume_intents. revert st Hst.
    induction ints as [|i ints IH]; intros st Hst; simpl; [done|].
    apply IH. intros c l e He.
    destruct (_consume_intent_params st i) as (_ & _ & _ & ->).
    destruct (decide (targets i c l)) as [Ht|Ht].
    + rewrite (_consume_intent_target st i c l Ht) in He.
      destruct (lookup_entry st c l) as [e0|] eqn:He0.
      * destruct (owned_by e0).
        -- apply (Hst c l). congruence.
        -- rewrite lookup_entry_store_entry_eq in He. injection He as <-.
           simpl. lia.
      * rewrite lookup_entry_store_entry_eq in He. injection He as <-.
        simpl. lia.
    + rewrite _consume_intent_other in He by done. by apply (Hst c l).
  - intros c l e. rewrite lookup_entry_advance_tick. intros He.
    specialize (Hst c l e He). lia.
  - intros c l e He. specialize (Hst c l e He). simpl. lia.
  - exact Hst.
  - unfold release_label in *.
    destruct (lookup_entry st c' l') as [e'|] eqn:He'; [|done].
    case_bool_decide; [|done].
    intros c l e. rewrite lookup_entry_store_entry. simpl. case_decide.
    + intros [= <-]. simpl. by apply (Hst c' l').
    + apply Hst.
  - exact Hst.
  - unfold claim_label in *.
    destruct (lookup_entry st c' l') as [e'|] eqn:He'; [|done].
    assert (settled_in_past (store_entry st c' l'
              (Entry (value e') (last_tick e') (Some by_) (cooldown_until e'))))
      as Hclaimed.
    { intros c l e. rewrite lookup_entry_store_entry. simpl. case_decide.
      - intros [= <-]. simpl. by apply (Hst c' l').
      - apply Hst. }
    destruct (owned_by e'); [done|].
    destruct (cooldown_until e') as [u|];
      [destruct (current_tick st <? u)%Z|]; done.
  - intros c l e. rewrite lookup_entry_prune. simpl.
    destruct (lookup_entry st c l) as [e0|] eqn:He0; [|done]. simpl.
    unfold prune_entry. destruct (owned_by e0).
    + intros [= <-]. by apply (Hst c l).
    + destruct (Qltb _ _); [done|]. intros [= <-]. simpl. lia.
Qed.

(** X14: as long as [tick] is never called with a negative step, no
    entry of a store built by the constructor is ever settled in the future:
    [last_tick <= current_tick] holds for every entry after every call. *)
Theorem entries_settled_in_past rate cooldown threshold ops :
  Forall forward_op ops →
  settled_in_past (run (init rate cooldown threshold) ops).
Proof.
  intros Hops. unfold run.
  assert (settled_in_past (init rate cooldown threshold)) as H0.
  { intros c l e. unfold lookup_entry. simpl. by rewrite !lookup_empty. }
  revert H0. generalize (init rate cooldown threshold) as st.
  induction Hops as [|o ops Ho _ IH]; intros st Hst; simpl; [done|].
  apply IH. by apply exec_settled_in_past.
Qed.

(** X14 at work. *)
Lemma entries_settled_in_past_witness :
  settled_in_past
    (run (init (1 # 2) 2 (2 # 10))
       [Consume [emit_label (0, 0)%Z "antigen" 4]; AdvanceTick 3;
        Claim (0, 0)%Z "antigen" "percell_A"; Tick 1; Prune]).
Proof.
  apply entries_settled_in_past.
  repeat constructor; simpl; lia.
Defined.

(** With a negative step the invariant of X14 breaks: the entry emitted
    at tick 3 is ahead of the clock after [tick(-2)]. *)
Example tick_back_leaves_future_entry :
  ∃ e, lookup_entry
         (run init_default
            [AdvanceTick 3; Consume [emit_label (0, 0)%Z "antigen" 1]; Tick (-2)])
         (0, 0)%Z "antigen" = Some e ∧
       (current_tick
          (run init_default
             [AdvanceTick 3; Consume [emit_label (0, 0)%Z "antigen" 1];
              Tick (-2)])
        < last_tick e)%Z.
Proof. eexists. split; reflexivity. Qed.

(** * Further properties of [LabelCenter] *)

(** A queue with an emit intent that lacks its [coord] or its [label]
    stops [apply_tick] at the first such intent, whatever the store. *)
Lemma apply_intents_stops lc pre i post :
  Forall wf_emit pre → ¬ wf_emit i →
  ∃ lc' e, apply_intents lc (pre ++ i :: post) = (lc', Some e) ∧
           ∀ c l, field_value lc' c l = merge_at c l pre (field_value lc c l).
Proof.
  intros Hpre Hi. revert lc.
  induction Hpre as [|j pre Hj _ IH]; intros lc; simpl.
  - destruct (_apply_intent lc i) as [lc1|e] eqn:Hr.
    + exfalso. apply Hi. by apply (_apply_intent_ok lc i lc1).
    + by exists lc, e.
  - destruct (_apply_intent_wf lc j Hj) as (lc1 & -> & _ & _ & Hf1).
    destruct (IH lc1) as (lc' & e & -> & Hf).
    exists lc', e. split; [done|]. intros c l. by rewrite Hf, Hf1.
Qed.

(** X16: an [apply_tick] that raises leaves the store half-way.  It
    stopped at the first queued emit intent that lacks its [coord] or its
    [label]: the intents queued before that one are merged into the field,
    that one and those after it are not, and neither the queue nor the
    summary cache is cleared.  Calling [apply_tick] again is no retry: it
    raises again at the same intent, after merging the intents before it a
    second time. *)
Theorem apply_tick_failure lc t lc' e :
  apply_tick lc t = (lc', Some e) →
  intent_queue lc' = intent_queue lc ∧
  _grid_summary_cache lc' = _grid_summary_cache lc ∧
  ∃ pre i post,
    queued_intents lc = pre ++ i :: post ∧ Forall wf_emit pre ∧ ¬ wf_emit i ∧
    (∀ c l, field_value lc' c l = merge_at c l pre (field_value lc c l)) ∧
    ∀ t2, ∃ lc'' e2,
      apply_tick lc' t2 = (lc'', Some e2) ∧
      intent_queue lc'' = intent_queue lc ∧
      ∀ c l, field_value lc'' c l
             = merge_at c l pre (merge_at c l pre (field_value lc c l)).
Proof.
  unfold apply_tick.
  destruct (apply_intents lc (queued_intents lc)) as [lc1 [x|]] eqn:Ha; [|done].
  intros [= <- <-].
  destruct (apply_intents_raises _ _ _ _ Ha)
    as (_ & Hq & Hc & pre & i & post & Hsplit & Hpre & Hi & Hf).
  split; [done|]. split; [done|].
  exists pre, i, post. split; [done|]. split; [done|]. split; [done|].
  split; [done|]. intros t2.
  assert (queued_intents lc1 = pre ++ i :: post) as Hsplit1.
  { unfold queued_intents in *. by rewrite Hq. }
  destruct (apply_intents_stops lc1 pre i post Hpre Hi) as (lc2 & e2 & Ha2 & Hf2).
  rewrite Hsplit1, Ha2.
  exists lc2, e2. split; [done|]. split.
  - destruct (apply_intents_raises _ _ _ _ Ha2) as (_ & Hq2 & _).
    congruence.
  - intros c l. by rewrite Hf2, Hf.
Qed.

(** X16 at work on [demo_partial], whose second intent has no [coord]:
    the queue is kept, [A] holds [1.0] after the first [apply_tick] and
    [2.0] after the second. *)
Lemma apply_tick_failure_witness :
  ∃ lc' lc'' e2,
    intent_queue lc' = intent_queue demo_partial ∧
    field_value lc' (1, 1)%Z "A" = Some (0 + 1)%Q ∧
    apply_tick lc' None = (lc'', Some e2) ∧
    field_value lc'' (1, 1)%Z "A" = Some (0 + 1 + 1)%Q.
Proof.
  destruct (apply_tick demo_partial None) as [lc' [e|]] eqn:Ha;
    [|vm_compute in Ha; discriminate Ha].
  destruct (apply_tick_failure demo_partial None lc' e Ha)
    as (Hq & _ & pre & i & post & Hsplit & Hpre & Hi & Hf & Hagain).
  assert (pre = [emit_label (1, 1)%Z "A" 1]) as ->.
  { change (queued_intents demo_partial)
      with ([emit_label (1, 1)%Z "A" 1] ++
            Intent (Some "emit_label"%string)
              (Some (Payload None (Some "A"%string) (Some 1%Q)))
            :: [emit_label (2, 2)%Z "B" 1]) in Hsplit.
    destruct pre as [|j1 [|j2 pre]].
    - injection Hsplit as <- _. exfalso. apply Hi.
      intros _. split; eexists; reflexivity.
    - by injection Hsplit as <- _.
    - injection Hsplit as <- <- _.
      inversion Hpre as [|? ? _ Hrest]; subst.
      inversion Hrest as [|? ? Hbad _]; subst.
      destruct (Hbad eq_refl) as [[c Hc] _]. discriminate Hc. }
  destruct (Hagain None) as (lc'' & e2 & Ha2 & _ & Hf2).
  exists lc', lc'', e2. split; [exact Hq|].
  split; [rewrite Hf; vm_compute; reflexivity|].
  split; [exact Ha2|]. rewrite Hf2. vm_compute. reflexivity.
Defined.

(** X17: [apply_tick] is idempotent: after an [apply_tick] that returned
    normally the queue is empty, and a second [apply_tick] returns the same
    store without touching the field. *)
Theorem apply_tick_idempotent lc t lc' t' :
  apply_tick lc t = (lc', None) → apply_tick lc' t' = (lc', None).
Proof.
  unfold apply_tick.
  destruct (apply_intents lc (queued_intents lc)) as [lc1 [x|]]; [done|].
  by intros [= <-].
Qed.

(** X17 at work on [demo_center]. *)
Lemma apply_tick_idempotent_witness :
  apply_tick (fst (apply_tick demo_center None)) (Some 2%Z)
  = (fst (apply_tick demo_center None), None).
Proof.
  apply (apply_tick_idempotent demo_center None).
  vm_compute. reflexivity.
Defined.

Lemma center_exec_invariant lc o :
  cache_coherent lc ∧ Forall wf_emit (queued_intents lc) →
  wf_center_op o →
  cache_coherent (center_exec lc o) ∧
  Forall wf_emit (queued_intents (center_exec lc o)).
Proof.
  intros [Hcache Hq] Ho. destruct o as [ints src t|t|]; simpl in *.
  - split.
    + intros s. unfold enqueue_intents. destruct ints; simpl; apply Hcache.
    + rewrite queued_intents_enqueue. by apply Forall_app.
  - unfold apply_tick.
    destruct (apply_intents_wf lc _ Hq) as (lc1 & -> & _ & _ & _). simpl.
    split; [by intros s|]. constructor.
  - unfold get_grid_summary.
    destruct (_grid_summary_cache lc) as [s|] eqn:Hs; simpl.
    + by split.
    + split; [|done]. intros s. simpl. by intros [= <-].
Qed.

(** X15: as long as every enqueued emit intent names its coordinate and
    its label, the summary cache never goes stale: after any sequence of
    [enqueue_intents], [apply_tick] and [get_grid_summary] calls on a new
    store, [get_grid_summary] returns the summary of the field as it is
    now. *)
Theorem summary_is_current ops :
  Forall wf_center_op ops →
  fst (get_grid_summary (center_run new_center ops))
  = CellSummary <$> field (center_run new_center ops).
Proof.
  intros Hops.
  assert (cache_coherent (center_run new_center ops)) as Hcache.
  { unfold center_run.
    assert (cache_coherent new_center ∧ Forall wf_emit (queued_intents new_center))
      as H0 by (split; [by intros s|constructor]).
    revert H0. generalize new_center as lc.
    induction Hops as [|o ops Ho _ IH]; intros lc H0; simpl; [by destruct H0|].
    apply IH. by apply center_exec_invariant. }
  unfold get_grid_summary.
  destruct (_grid_summary_cache _) as [s|] eqn:Hs; simpl; [|done].
  by apply Hcache.
Qed.

(** X15 at work: a summary is taken and cached, more intents are queued
    and applied; the next summary shows the new field. *)
Lemma summary_is_current_witness :
  fst (get_grid_summary
         (center_run new_center
            [Enqueue [emit_label (1, 1)%Z "A" 1] None None; ApplyTick None;
             GetGridSummary; Enqueue [emit_label (1, 1)%Z "A" 2] None None;
             GetGridSummary; ApplyTick (Some 1%Z)]))
  = CellSummary
    <$> field
          (center_run new_center
             [Enqueue [emit_label (1, 1)%Z "A" 1] None None; ApplyTick None;
              GetGridSummary; Enqueue [emit_label (1, 1)%Z "A" 2] None None;
              GetGridSummary; ApplyTick (Some 1%Z)]).
Proof.
  apply summary_is_current.
  assert (∀ c l a, wf_emit (emit_label c l a)) as Hwf
    by (intros c l a _; split; eexists; reflexivity).
  repeat (constructor; simpl; try apply Hwf).
Defined.

(** Without that hypothesis the cache does go stale: a summary cached
    before a failing [apply_tick] is still returned after it, although the
    field has changed. *)
Example stale_summary_after_failure :
  let lc :=
    center_run new_center
      [GetGridSummary;
       Enqueue [emit_label (1, 1)%Z "A" 1; Intent (Some "emit_label"%string) None]
         None None;
       ApplyTick None] in
  fst (get_grid_summary lc) = ∅ ∧ field_value lc (1, 1)%Z "A" = Some (0 + 1)%Q.
Proof. split; vm_compute; reflexivity. Qed.

(** X18: the two stores disagree on an emit intent without [amount]:
    on a key that holds nothing yet, [LabelCenterBase] stores [0.0] and
    [LabelCenter] stores [1.0]. *)
Theorem default_amounts_differ i c l st lc :
  targets i c l →
  pl_amount (default empty_payload (intent_payload i)) = None →
  lookup_entry st c l = None → field_value lc c l = None →
  lookup_entry (_consume_intent st i) c l
  = Some (Entry 0 (current_tick st) None None) ∧
  ∃ lc', _apply_intent lc i = Ok lc' ∧ field_value lc' c l = Some (0 + 1)%Q.
Proof.
  intros Ht Ha Hst Hlc. split.
  - rewrite (_consume_intent_target st i c l Ht), Hst.
    rewrite lookup_entry_store_entry_eq. unfold intent_amount. by rewrite Ha.
  - assert (wf_emit i) as Hwf.
    { destruct Ht as (_ & Hc & Hl). intros _. rewrite Hc, Hl. split; by eexists. }
    destruct (_apply_intent_wf lc i Hwf) as (lc' & Hok & _ & _ & Hf).
    exists lc'. split; [done|]. rewrite Hf, decide_True by done.
    rewrite Hlc. unfold center_amount. by rewrite Ha.
Qed.

(** X18 at work on the two new stores. *)
Lemma default_amounts_differ_witness :
  lookup_entry
    (_consume_intent init_default
       (Intent (Some "emit_label"%string)
          (Some (Payload (Some (0, 0)%Z) (Some "PMHC"%string) None))))
    (0, 0)%Z "PMHC" = Some (Entry 0 0 None None) ∧
  ∃ lc', _apply_intent new_center
           (Intent (Some "emit_label"%string)
              (Some (Payload (Some (0, 0)%Z) (Some "PMHC"%string) None)))
         = Ok lc' ∧
         field_value lc' (0, 0)%Z "PMHC" = Some (0 + 1)%Q.
Proof.
  apply (default_amounts_differ
           (Intent (Some "emit_label"%string)
              (Some (Payload (Some (0, 0)%Z) (Some "PMHC"%string) None)))
           (0, 0)%Z "PMHC" init_default new_center); try reflexivity.
  repeat split.
Defined.

(** * Further properties of the decay code *)

(** ** The half-life registry of [Decayer] *)

Lemma get_half_life_in_map H d n v :
  half_life_map d !! str_upper H n = Some v →
  get_half_life H d (Some n) = Some v.
Proof. intros Hm. unfold get_half_life. by rewrite Hm. Qed.

(** X21: [set_half_life] rejects a half-life that is not positive with
    [ValueError]; a positive one is stored under the upper-cased name, so
    [get_half_life] then returns it for every spelling of the name with the
    same upper case, and answers for all other names as before. *)
Theorem set_then_get_half_life H d n v :
  ((v <= 0)%R → set_half_life H d n v = Raises DecayValueError) ∧
  ((0 < v)%R →
   ∃ d', set_half_life H d n v = Returns d' ∧
         (∀ n', str_upper H n' = str_upper H n →
                get_half_life H d' (Some n') = Some v) ∧
         (∀ n', str_upper H n' ≠ str_upper H n →
                get_half_life H d' (Some n') = get_half_life H d (Some n')) ∧
         removal_threshold d' = removal_threshold d ∧
         min_half_life d' = min_half_life d ∧
         global_default_half_life d' = global_default_half_life d).
Proof.
  unfold set_half_life. split.
  - intros Hv. by rewrite decide_True.
  - intros Hv. rewrite decide_False by lra.
    eexists. split; [done|]. split; [|split; [|done]].
    + intros n' Hn'. apply get_half_life_in_map. simpl.
      by rewrite Hn', lookup_insert_eq.
    + intros n' Hn'. unfold get_half_life. simpl.
      by rewrite lookup_insert_ne.
Qed.

(** X21 at work: overriding [IL12] on [demo_decayer] as
    [test_set_half_life_and_global_default] does. *)
Lemma set_then_get_half_life_witness :
  ∃ d', set_half_life demo_host demo_decayer "IL12" 16 = Returns d' ∧
        get_half_life demo_host d' (Some "IL12"%string) = Some 16%R.
Proof.
  destruct (proj2 (set_then_get_half_life demo_host demo_decayer "IL12" 16))
    as (d' & Hs & Hg & _); [lra|].
  exists d'. split; [exact Hs|]. by apply Hg.
Defined.

(** X28: a new [Decayer] answers for every name whose upper case is a
    registry key with a positive half-life by that half-life; and
    [get_half_life(None)] is [None] even when a global default is set. *)
Theorem new_decayer_knows_registry H threshold min_hl global_default :
  (∀ n hl, LABEL_REGISTRY H !! str_upper H n = Some hl → (0 < hl)%R →
           get_half_life H (Decayer_init H threshold min_hl global_default)
             (Some n) = Some hl) ∧
  get_half_life H (Decayer_init H threshold min_hl global_default) None = None.
Proof.
  split; [|done]. intros n hl Hreg Hpos.
  apply get_half_life_in_map. simpl.
  apply map_lookup_filter_Some. by split.
Qed.

Lemma load_entry_lookup H d kv K :
  half_life_map (load_entry H d kv) !! K
  = if decide (kv.1 ≠ global_key ∧ (0 < kv.2)%R ∧ str_upper H kv.1 = K)
    then Some kv.2 else half_life_map d !! K.
Proof.
  unfold load_entry, set_half_life.
  destruct (decide (kv.1 = global_key)) as [Hg|Hg].
  - rewrite decide_False; [done|]. by intros [? _].
  - destruct (decide (kv.2 <= 0)%R) as [Hv|Hv].
    + rewrite decide_False; [done|]. intros (_ & ? & _). lra.
    + simpl. destruct (decide (str_upper H kv.1 = K)) as [<-|HK].
      * rewrite lookup_insert_eq. rewrite decide_True; [done|].
        repeat split; [done|lra].
      * rewrite lookup_insert_ne by done.
        rewrite decide_False; [done|]. by intros (_ & _ & ?).
Qed.

Lemma load_entries_skip H d post K :
  Forall (λ kv : string * R,
            str_upper H kv.1 ≠ K ∨ (kv.2 <= 0)%R ∨ kv.1 = global_key) post →
  half_life_map (foldl (load_entry H) d post) !! K = half_life_map d !! K.
Proof.
  intros Hpost. revert d.
  induction Hpost as [|kv post Hkv _ IH]; intros d; simpl; [done|].
  rewrite IH, load_entry_lookup. rewrite decide_False; [done|].
  intros (Hg & Hv & HK). destruct Hkv as [?|[?|?]]; [done|lra|done].
Qed.

(** X27: [load_from_config] never raises.  A positive half-life given
    for a name is what [get_half_life] returns for that name afterwards,
    unless a later item of the config overrides the same upper-cased name;
    items that are not positive are skipped silently, so a config of such
    items only leaves the map of half-lives as it was. *)
Theorem load_from_config_entries H d cfg :
  (∀ pre k v post,
     cfg = pre ++ (k, v) :: post → (0 < v)%R → k ≠ global_key →
     Forall (λ kv : string * R,
               str_upper H kv.1 ≠ str_upper H k ∨ (kv.2 <= 0)%R
               ∨ kv.1 = global_key) post →
     get_half_life H (load_from_config H d cfg) (Some k) = Some v) ∧
  (Forall (λ kv : string * R, (kv.2 <= 0)%R ∨ kv.1 = global_key) cfg →
   half_life_map (load_from_config H d cfg) = half_life_map d).
Proof.
  split.
  - intros pre k v post -> Hv Hk Hpost.
    apply get_half_life_in_map. unfold load_from_config.
    destruct (pre ++ (k, v) :: post) as [|x xs] eqn:Hcfg.
    { by destruct pre. }
    rewrite <- Hcfg. clear Hcfg x xs.
    match goal with |- context [foldl _ ?d0 _] => generalize d0 end.
    intros d0. rewrite foldl_app. simpl.
    rewrite (load_entries_skip H _ post (str_upper H k) Hpost).
    rewrite load_entry_lookup. simpl. by rewrite decide_True.
  - intros Hall. unfold load_from_config. destruct cfg as [|x xs]; [done|].
    apply map_eq. intros K.
    rewrite load_entries_skip.
    + by destruct (list_to_map (x :: xs) !! global_key).
    + eapply Forall_impl; [exact Hall|]. intros kv [?|?]; eauto.
Qed.

(** X27 at work: the config of the docstring of [load_from_config]. *)
Lemma load_from_config_entries_witness :
  get_half_life demo_host
    (load_from_config demo_host demo_decayer
       [("IL12"%string, 10%R); ("PERFORIN_PULSE"%string, (8 / 10)%R);
        (global_key, 5%R)])
    (Some "IL12"%string) = Some 10%R.
Proof.
  apply (proj1 (load_from_config_entries demo_host demo_decayer _)
           [] "IL12"%string 10%R
           [("PERFORIN_PULSE"%string, (8 / 10)%R); (global_key, 5%R)]).
  - reflexivity.
  - lra.
  - discriminate.
  - constructor; [left; simpl; discriminate|].
    constructor; [right; by right|]. constructor.
Defined.

(** ** Where a half-life comes from *)

(** X22: a positive [half_life] in the [meta] of a label overrides
    every other source.  Otherwise the decayer's own answer decides, and the
    source [global_default] is never reported: when a global default is set,
    it reaches the label through [get_half_life] and the source reads
    [decayer_registry].  The half-life is [None] exactly when the source is
    [none]. *)
Theorem half_life_source H d lab :
  (∀ v, lab_meta_half_life lab = Some v → (0 < v)%R →
        _determine_half_life_for_label H d lab
        = (Some v, "instance_meta"%string)) ∧
  snd (_determine_half_life_for_label H d lab) ≠ "global_default"%string ∧
  (fst (_determine_half_life_for_label H d lab) = None
   ↔ snd (_determine_half_life_for_label H d lab) = "none"%string) ∧
  (∀ g, global_default_half_life d = Some g →
        (∀ v, lab_meta_half_life lab = Some v → (v <= 0)%R) →
        ∃ hl, _determine_half_life_for_label H d lab
              = (Some hl, "decayer_registry"%string)).
Proof.
  unfold _determine_half_life_for_label.
  set (canonical := classify_canonical H (classified_name lab)).
  assert (get_half_life H d (Some canonical) = None →
          global_default_half_life d = None) as Hnone.
  { unfold get_half_life.
    destruct (half_life_map d !! _); [done|].
    by destruct (registry_half_life H _). }
  split; [|split; [|split]].
  - intros v -> Hv. by rewrite decide_True.
  - destruct (lab_meta_half_life lab) as [v|]; [case_decide; [done|]|];
      (destruct (get_half_life H d (Some canonical)) eqn:Hc; [done|];
       rewrite (Hnone eq_refl);
       by destruct (get_half_life H d (lab_name lab))).
  - destruct (lab_meta_half_life lab) as [v|]; [case_decide; [done|]|];
      (destruct (get_half_life H d (Some canonical)) eqn:Hc; [done|];
       rewrite (Hnone eq_refl);
       by destruct (get_half_life H d (lab_name lab))).
  - intros g Hg Hmeta.
    assert (∃ hl, get_half_life H d (Some canonical) = Some hl) as [hl Hhl].
    { destruct (get_half_life H d (Some canonical)) eqn:Hc; [by eexists|].
      rewrite (Hnone eq_refl) in Hg. done. }
    exists hl. rewrite Hhl.
    destruct (lab_meta_half_life lab) as [v|]; [|done].
    rewrite decide_False; [done|]. specialize (Hmeta v eq_refl). lra.
Qed.

(** X22 at work: a label with [meta = {"half_life": 3}] keeps its own
    half-life although the registry says 8 for [IL12]. *)
Lemma half_life_source_witness :
  _determine_half_life_for_label demo_host demo_decayer
    (mkRawLabel "id-2" (Some "IL12"%string) None (Some "IL12"%string) 8 0
       None None (Some 3%R))
  = (Some 3%R, "instance_meta"%string).
Proof.
  apply (proj1 (half_life_source demo_host demo_decayer
                  (mkRawLabel "id-2" (Some "IL12"%string) None
                     (Some "IL12"%string) 8 0 None None (Some 3%R)))
           3%R eq_refl).
  lra.
Defined.

(** ** Decaying a region *)

Lemma _decay_mass_total m mass dt hl :
  (0 < m)%R →
  ∃ x, _decay_mass m mass dt hl = FloatOk x ∧
       ((0 <= mass)%R → (0 <= dt)%R → (x <= mass)%R).
Proof.
  intros Hm. destruct (Rle_dec dt 0) as [Hdt|Hdt].
  - exists mass. split; [by apply _decay_mass_elapsed_le_0|]. lra.
  - assert (0 < dt)%R as Hpos by lra.
    assert (∀ h, (0 < h)%R →
                 (0 <= mass)%R → (mass * Rpower (1 / 2) (dt / h) <= mass)%R)
      as Hshrink.
    { intros h Hh Hmass.
      pose proof (Rpower_half_lt_1 (dt / h) (Rdiv_lt_0_compat _ _ Hpos Hh)).
      nra. }
    destruct (Rlt_dec hl m) as [Hlt|Hge].
    + eexists. split; [by apply _decay_mass_clamped|].
      intros Hmass _. by apply Hshrink.
    + eexists. split; [apply _decay_mass_regular; lra|].
      intros Hmass _. apply Hshrink; lra.
Qed.

Lemma is_removed_false d m m' :
  is_removed d m m' = false → (removal_threshold d < m')%R ∧ (0 < m')%R.
Proof.
  unfold is_removed. rewrite !orb_false_iff.
  intros [[H1 H2] _].
  apply bool_decide_eq_false in H1. apply bool_decide_eq_false in H2. lra.
Qed.

(** What the loop body of [apply_to_region] returns for one label. *)
Lemma decay_label_returns H d t lab dl counted kept :
  decay_label H d t lab = Returns (dl, counted, kept) →
  orig_mass dl = lab_mass lab ∧
  detail_dt dl = Z.max 0 (t - lab_created_tick lab) ∧
  detail_half_life dl = fst (_determine_half_life_for_label H d lab) ∧
  kept = (if is_removed d (lab_mass lab) (new_mass dl) then None
          else Some (with_mass lab (new_mass dl))) ∧
  match fst (_determine_half_life_for_label H d lab) with
  | None => new_mass dl = lab_mass lab
  | Some h =>
      _decay_mass (min_half_life d) (lab_mass lab)
        (IZR (Z.max 0 (t - lab_created_tick lab))) h = FloatOk (new_mass dl)
  end.
Proof.
  unfold decay_label.
  destruct (_determine_half_life_for_label H d lab) as [[h|] src]; simpl.
  - destruct (_decay_mass _ _ _ _) as [m'|]; [|done].
    intros [= <- <- <-]. done.
  - intros [= <- <- <-]. done.
Qed.

Lemma decay_label_total H d t lab :
  (0 < min_half_life d)%R →
  ∃ dl counted kept, decay_label H d t lab = Returns (dl, counted, kept).
Proof.
  intros Hm. unfold decay_label.
  destruct (_determine_half_life_for_label H d lab) as [[h|] src].
  - destruct (_decay_mass_total (min_half_life d) (lab_mass lab)
                (IZR (Z.max 0 (t - lab_created_tick lab))) h Hm)
      as (x & -> & _).
    by eexists _, _, _.
  - by eexists _, _, _.
Qed.

Lemma decay_labels_total H d t live :
  (0 < min_half_life d)%R →
  ∃ r, decay_labels H d t live = Returns r.
Proof.
  intros Hm. induction live as [|lab live [r IH]]; simpl; [by eexists|].
  destruct (decay_label_total H d t lab Hm) as (dl & c & kept & ->).
  rewrite IH. destruct r as [[[dls dc] rc] nl]. by eexists.
Qed.

Lemma decay_labels_counts H d t live dls dc rc nl :
  decay_labels H d t live = Returns (dls, dc, rc, nl) →
  length dls = length live ∧ length live = (length nl + rc)%nat ∧
  (dc ≤ length live)%nat.
Proof.
  revert dls dc rc nl.
  induction live as [|lab live IH]; intros dls dc rc nl; simpl.
  - intros [= <- <- <- <-]. done.
  - destruct (decay_label H d t lab) as [[[dl c] kept]|]; [|done].
    destruct (decay_labels H d t live) as [[[[dls' dc'] rc'] nl']|]; [|done].
    intros [= <- <- <- <-].
    destruct (IH _ _ _ _ eq_refl) as (Hd & Hl & Hc).
    destruct kept, c; simpl; lia.
Qed.

Lemma decay_labels_survivors H d t live dls dc rc nl :
  decay_labels H d t live = Returns (dls, dc, rc, nl) →
  Forall (λ lab2, (removal_threshold d < lab_mass lab2)%R ∧
                  (0 < lab_mass lab2)%R ∧
                  ∃ lab, lab ∈ live ∧ lab2 = with_mass lab (lab_mass lab2) ∧
                         ((0 < min_half_life d)%R → (0 <= lab_mass lab)%R →
                          (lab_mass lab2 <= lab_mass lab)%R)) nl ∧
  sublist (lab_id <$> nl) (lab_id <$> live).
Proof.
  revert dls dc rc nl.
  induction live as [|lab live IH]; intros dls dc rc nl; simpl.
  - intros [= <- <- <- <-]. split; constructor.
  - destruct (decay_label H d t lab) as [[[dl c] kept]|] eqn:Hlab; [|done].
    destruct (decay_labels H d t live) as [[[[dls' dc'] rc'] nl']|]; [|done].
    intros [= <- <- <- <-].
    destruct (IH _ _ _ _ eq_refl) as (Hall & Hsub).
    assert (Forall (λ lab2, (removal_threshold d < lab_mass lab2)%R ∧
                  (0 < lab_mass lab2)%R ∧
                  ∃ lab0, lab0 ∈ lab :: live ∧
                          lab2 = with_mass lab0 (lab_mass lab2) ∧
                         ((0 < min_half_life d)%R → (0 <= lab_mass lab0)%R →
                          (lab_mass lab2 <= lab_mass lab0)%R)) nl') as Hall'.
    { eapply Forall_impl; [exact Hall|]. simpl.
      intros lab2 (? & ? & lab0 & ? & ? & ?). split; [done|]. split; [done|].
      exists lab0. split; [by right|]. done. }
    destruct (decay_label_returns _ _ _ _ _ _ _ Hlab)
      as (_ & _ & _ & -> & Hm').
    destruct (is_removed d (lab_mass lab) (new_mass dl)) eqn:Hrm.
    + split; [done|]. by apply sublist_cons.
    + split; [|by apply sublist_skip].
      constructor; [|done]. simpl.
      destruct (is_removed_false _ _ _ Hrm) as [? ?].
      split; [done|]. split; [done|].
      exists lab. split; [by left|]. split; [done|].
      intros Hmin Hmass.
      destruct (fst (_determine_half_life_for_label H d lab)) as [h|].
      * destruct (_decay_mass_total (min_half_life d) (lab_mass lab)
                    (IZR (Z.max 0 (t - lab_created_tick lab))) h Hmin)
          as (x & Hx & Hle).
        rewrite Hx in Hm'. injection Hm' as <-.
        apply Hle; [done|]. apply IZR_le. lia.
      * rewrite Hm'. lra.
Qed.

Lemma apply_to_region_returns H d sp region_id t :
  (0 < min_half_life d)%R →
  ∃ s sp', apply_to_region H d sp region_id t = Returns (s, sp').
Proof.
  intros Hm. unfold apply_to_region.
  destruct (get_labels sp region_id) as [live sp1].
  destruct (decay_labels_total H d t live Hm) as ([[[dls dc] rc] nl] & ->).
  by eexists _, _.
Qed.

(** X23: with a positive [min_half_life], [apply_to_region] always
    returns, and its summary adds up: [n_before] is the number of labels the
    region held, every label is either kept or counted as removed
    ([n_before = n_after + removed]), there is one detail per label, at most
    [n_before] labels count as decayed, the region afterwards holds
    [n_after] labels, and no other region is touched.  A region that did not
    exist is created empty. *)
Theorem apply_to_region_accounts H d sp region_id t :
  (0 < min_half_life d)%R →
  ∃ s sp',
    apply_to_region H d sp region_id t = Returns (s, sp') ∧
    n_before s = length (default [] (sp !! region_id)) ∧
    n_before s = (n_after s + removed s)%nat ∧
    length (details s) = n_before s ∧
    (decayed s ≤ n_before s)%nat ∧
    (∃ kept, sp' !! region_id = Some kept ∧ length kept = n_after s) ∧
    (∀ r', r' ≠ region_id → sp' !! r' = sp !! r').
Proof.
  intros Hm. unfold apply_to_region.
  assert (∃ sp1, get_labels sp region_id
                 = (default [] (sp !! region_id), sp1) ∧
                 ∀ r', r' ≠ region_id → sp1 !! r' = sp !! r')
    as (sp1 & -> & Hsp1).
  { unfold get_labels. destruct (sp !! region_id); simpl.
    - by eexists.
    - eexists. split; [done|]. intros r' Hr'. by rewrite lookup_insert_ne. }
  destruct (decay_labels_total H d t (default [] (sp !! region_id)) Hm)
    as ([[[dls dc] rc] nl] & Hret).
  rewrite Hret.
  destruct (decay_labels_counts _ _ _ _ _ _ _ _ Hret) as (Hd & Hl & Hc).
  eexists _, _. split; [done|]. simpl.
  split; [done|]. split; [done|]. split; [done|]. split; [done|].
  split.
  - exists nl. unfold replace_labels. by rewrite lookup_insert_eq.
  - intros r' Hr'. unfold replace_labels. rewrite lookup_insert_ne by done.
    by apply Hsp1.
Qed.

(** X23 at work on a region that holds [demo_il12]. *)
Lemma apply_to_region_accounts_witness :
  ∃ s sp',
    apply_to_region demo_host demo_decayer {[ "lung"%string := [demo_il12] ]}
      "lung" 8 = Returns (s, sp') ∧
    n_before s = 1%nat ∧ n_before s = (n_after s + removed s)%nat.
Proof.
  destruct (apply_to_region_accounts demo_host demo_decayer
              {[ "lung"%string := [demo_il12] ]} "lung" 8)
    as (s & sp' & Hret & Hn & Hsum & _).
  - simpl. unfold default_min_half_life. lra.
  - exists s, sp'. split; [exact Hret|]. split; [exact Hn | exact Hsum].
Defined.

(** X24: every label that [apply_to_region] leaves in the region has a
    mass above [removal_threshold] and above zero; it is one of the old
    labels with nothing but its mass changed ([created_tick] too is kept);
    the kept labels stay in their old order; and with a positive
    [min_half_life] no label of non-negative mass gains mass. *)
Theorem apply_to_region_survivors H d sp region_id t s sp' :
  apply_to_region H d sp region_id t = Returns (s, sp') →
  ∃ kept,
    sp' !! region_id = Some kept ∧
    Forall (λ lab2, (removal_threshold d < lab_mass lab2)%R ∧
                    (0 < lab_mass lab2)%R ∧
                    ∃ lab, lab ∈ default [] (sp !! region_id) ∧
                           lab2 = with_mass lab (lab_mass lab2) ∧
                           ((0 < min_half_life d)%R → (0 <= lab_mass lab)%R →
                            (lab_mass lab2 <= lab_mass lab)%R)) kept ∧
    sublist (lab_id <$> kept) (lab_id <$> default [] (sp !! region_id)).
Proof.
  unfold apply_to_region.
  assert (∃ sp1, get_labels sp region_id
                 = (default [] (sp !! region_id), sp1)) as (sp1 & ->).
  { unfold get_labels. destruct (sp !! region_id); by eexists. }
  destruct (decay_labels H d t _) as [[[[dls dc] rc] nl]|] eqn:Hret; [|done].
  intros [= <- <-].
  destruct (decay_labels_survivors _ _ _ _ _ _ _ _ Hret) as (Hall & Hsub).
  exists nl. unfold replace_labels. rewrite lookup_insert_eq. done.
Qed.

(** X24 at work on the region of [demo_il12]. *)
Lemma apply_to_region_survivors_witness :
  ∃ s sp' kept,
    apply_to_region demo_host demo_decayer {[ "lung"%string := [demo_il12] ]}
      "lung" 8 = Returns (s, sp') ∧
    sp' !! "lung"%string = Some kept ∧
    Forall (λ lab2, (0 < lab_mass lab2)%R) kept.
Proof.
  destruct (apply_to_region_returns demo_host demo_decayer
              {[ "lung"%string := [demo_il12] ]} "lung" 8)
    as (s & sp' & Hret).
  { simpl. unfold default_min_half_life. lra. }
  destruct (apply_to_region_survivors demo_host demo_decayer _ _ _ _ _ Hret)
    as (kept & Hk & Hall & _).
  exists s, sp', kept. split; [exact Hret|]. split; [exact Hk|].
  eapply Forall_impl; [exact Hall|]. simpl. intros lab2 (_ & Hpos & _).
  exact Hpos.
Defined.

Lemma decay_label_regular H d t lab h src :
  _determine_half_life_for_label H d lab = (Some h, src) →
  (0 < min_half_life d)%R → (min_half_life d <= h)%R →
  (lab_created_tick lab < t)%Z →
  ∃ dl counted,
    decay_label H d t lab
    = Returns (dl, counted,
               if is_removed d (lab_mass lab)
                    (lab_mass lab * decay_factor_of (t - lab_created_tick lab) h)
               then None
               else Some (with_mass lab
                            (lab_mass lab
                             * decay_factor_of (t - lab_created_tick lab) h))).
Proof.
  intros Hdet Hmin Hh Ht. unfold decay_label. rewrite Hdet.
  rewrite Z.max_r by lia.
  rewrite _decay_mass_regular; [|done|apply IZR_lt; lia|done].
  by eexists _, _.
Qed.

(** The new list of a region is made of what the loop body keeps of
    each label, in order. *)
Lemma decay_labels_new_list H d t live dls dc rc nl :
  decay_labels H d t live = Returns (dls, dc, rc, nl) →
  nl = omap (kept_label H d t) live.
Proof.
  revert dls dc rc nl.
  induction live as [|lab live IH]; intros dls dc rc nl; simpl.
  - by intros [= <- <- <- <-].
  - unfold kept_label at 1.
    destruct (decay_label H d t lab) as [[[dl c] kept]|]; [|done].
    destruct (decay_labels H d t live) as [[[[dls' dc'] rc'] nl']|]; [|done].
    intros [= <- <- <- <-]. rewrite (IH _ _ _ _ eq_refl).
    by destruct kept.
Qed.

Lemma apply_to_region_kept H d sp region_id t :
  (0 < min_half_life d)%R →
  ∃ s sp',
    apply_to_region H d sp region_id t = Returns (s, sp') ∧
    sp' !! region_id
    = Some (omap (kept_label H d t) (default [] (sp !! region_id))).
Proof.
  intros Hm. unfold apply_to_region.
  assert (∃ sp1, get_labels sp region_id
                 = (default [] (sp !! region_id), sp1)) as (sp1 & ->).
  { unfold get_labels. destruct (sp !! region_id); by eexists. }
  destruct (decay_labels_total H d t (default [] (sp !! region_id)) Hm)
    as ([[[dls dc] rc] nl] & Hret).
  rewrite Hret. eexists _, _. split; [done|].
  unfold replace_labels. rewrite lookup_insert_eq.
  by rewrite (decay_labels_new_list _ _ _ _ _ _ _ _ Hret).
Qed.

Lemma kept_label_regular H d t lab h src :
  _determine_half_life_for_label H d lab = (Some h, src) →
  (0 < min_half_life d)%R → (min_half_life d <= h)%R →
  (lab_created_tick lab < t)%Z →
  kept_label H d t lab
  = if is_removed d (lab_mass lab)
         (lab_mass lab * decay_factor_of (t - lab_created_tick lab) h)
    then None
    else Some (with_mass lab
                 (lab_mass lab * decay_factor_of (t - lab_created_tick lab) h)).
Proof.
  intros Hdet Hmin Hh Ht. unfold kept_label.
  by destruct (decay_label_regular H d t lab h src Hdet Hmin Hh Ht)
    as (dl & c & ->).
Qed.

(** X25: [apply_to_region] is not idempotent.  It decays every label of
    the region by its whole age [current_tick - created_tick] and writes the
    new mass back without touching [created_tick], so a second call in the
    same tick treats every label it finds as the first call did: the region
    after two calls is what the loop body keeps of what the loop body kept.
    Hence each label of the region with a half-life [h] (at least
    [min_half_life]) and a positive age is held with [mass * f] after one
    call and with [mass * f * f] after two, where [f] is [0.5^(age / h)],
    as long as the removal test lets it through. *)
Theorem apply_to_region_compounds H d sp region_id t :
  (0 < min_half_life d)%R →
  ∃ s1 sp1 s2 sp2,
    apply_to_region H d sp region_id t = Returns (s1, sp1) ∧
    sp1 !! region_id
    = Some (omap (kept_label H d t) (default [] (sp !! region_id))) ∧
    apply_to_region H d sp1 region_id t = Returns (s2, sp2) ∧
    sp2 !! region_id
    = Some (omap (kept_label H d t)
              (omap (kept_label H d t) (default [] (sp !! region_id)))) ∧
    ∀ lab h src,
      lab ∈ default [] (sp !! region_id) →
      _determine_half_life_for_label H d lab = (Some h, src) →
      (min_half_life d <= h)%R →
      (lab_created_tick lab < t)%Z →
      is_removed d (lab_mass lab)
        (lab_mass lab * decay_factor_of (t - lab_created_tick lab) h)
      = false →
      with_mass lab
        (lab_mass lab * decay_factor_of (t - lab_created_tick lab) h)
      ∈ default [] (sp1 !! region_id) ∧
      (is_removed d
         (lab_mass lab * decay_factor_of (t - lab_created_tick lab) h)
         (lab_mass lab * decay_factor_of (t - lab_created_tick lab) h
          * decay_factor_of (t - lab_created_tick lab) h) = false →
       with_mass lab
         (lab_mass lab * decay_factor_of (t - lab_created_tick lab) h
          * decay_factor_of (t - lab_created_tick lab) h)
       ∈ default [] (sp2 !! region_id)).
Proof.
  intros Hmin.
  destruct (apply_to_region_kept H d sp region_id t Hmin)
    as (s1 & sp1 & Hr1 & Hsp1).
  destruct (apply_to_region_kept H d sp1 region_id t Hmin)
    as (s2 & sp2 & Hr2 & Hsp2).
  rewrite Hsp1 in Hsp2. simpl in Hsp2.
  exists s1, sp1, s2, sp2.
  split; [done|]. split; [done|]. split; [done|]. split; [done|].
  intros lab h src Hin Hdet Hh Ht Hkeep1.
  set (f := decay_factor_of (t - lab_created_tick lab) h) in *.
  assert (kept_label H d t lab = Some (with_mass lab (lab_mass lab * f)))
    as Hk1.
  { rewrite (kept_label_regular H d t lab h src Hdet Hmin Hh Ht).
    fold f. by rewrite Hkeep1. }
  assert (with_mass lab (lab_mass lab * f)
          ∈ omap (kept_label H d t) (default [] (sp !! region_id))) as Hin1.
  { apply list_elem_of_omap. by exists lab. }
  split.
  - rewrite Hsp1. exact Hin1.
  - intros Hkeep2. rewrite Hsp2. simpl.
    apply list_elem_of_omap. exists (with_mass lab (lab_mass lab * f)).
    split; [done|].
    rewrite (kept_label_regular H d t (with_mass lab (lab_mass lab * f)) h src
               Hdet Hmin Hh Ht).
    simpl. fold f. by rewrite Hkeep2.
Qed.

Lemma is_removed_keeps d m m' :
  (removal_threshold d < m')%R → (0 < m')%R →
  ((0 < m)%R → (1 / 10 ^ 12 <= m' / m)%R) →
  is_removed d m m' = false.
Proof.
  intros H1 H2 H3. unfold is_removed.
  rewrite (bool_decide_eq_false_2 (m' <= removal_threshold d)%R) by lra.
  rewrite (bool_decide_eq_false_2 (m' <= 0)%R) by lra. simpl.
  destruct (decide (0 < m)%R) as [Hm|Hm].
  - rewrite (bool_decide_eq_false_2 (m' / m < 1 / 10 ^ 12)%R).
    + by rewrite andb_false_r.
    + specialize (H3 Hm). lra.
  - by rewrite (bool_decide_eq_false_2 (0 < m)%R).
Qed.

Lemma demo_factor : decay_factor_of (8 - lab_created_tick demo_il12) 8 = (1 / 2)%R.
Proof.
  unfold decay_factor_of.
  change (8 - lab_created_tick demo_il12)%Z with 8%Z.
  replace (8 / 8)%R with 1%R by lra. apply Rpower_1. lra.
Qed.

Lemma demo_il12_half_life :
  _determine_half_life_for_label demo_host demo_decayer demo_il12
  = (Some 8%R, "decayer_registry"%string).
Proof.
  assert (get_half_life demo_host demo_decayer (Some "IL12"%string)
          = Some 8%R) as Hg.
  { apply get_half_life_in_map.
    apply map_lookup_filter_Some. split; [reflexivity|]. simpl. lra. }
  unfold _determine_half_life_for_label.
  change (lab_meta_half_life demo_il12) with (@None R).
  change (classify_canonical demo_host (classified_name demo_il12))
    with "IL12"%string.
  cbv zeta. by rewrite Hg.
Qed.

(** X25 at work on [demo_space], a region of two labels: [IL12] of mass
    [8.0] and half-life [8], created at tick 0 and decayed twice at tick 8,
    is left with [8 * 0.5 * 0.5]. *)
Lemma apply_to_region_compounds_witness :
  ∃ s1 sp1 s2 sp2,
    apply_to_region demo_host demo_decayer demo_space "lung" 8
    = Returns (s1, sp1) ∧
    apply_to_region demo_host demo_decayer sp1 "lung" 8 = Returns (s2, sp2) ∧
    with_mass demo_il12
      (8 * decay_factor_of (8 - lab_created_tick demo_il12) 8
       * decay_factor_of (8 - lab_created_tick demo_il12) 8)
    ∈ default [] (sp2 !! "lung"%string).
Proof.
  destruct (apply_to_region_compounds demo_host demo_decayer demo_space
              "lung" 8)
    as (s1 & sp1 & s2 & sp2 & Hr1 & _ & Hr2 & _ & Hall).
  { simpl. unfold default_min_half_life. lra. }
  exists s1, sp1, s2, sp2. split; [exact Hr1|]. split; [exact Hr2|].
  apply (Hall demo_il12 8%R "decayer_registry"%string).
  - right. left.
  - exact demo_il12_half_life.
  - simpl. unfold default_min_half_life. lra.
  - simpl. lia.
  - rewrite demo_factor. apply is_removed_keeps; simpl; try intros _; lra.
  - rewrite demo_factor. apply is_removed_keeps; simpl; try intros _; lra.
Defined.

(** ** [Label.decay] *)

Lemma Rpower_half_gt_1 (x : R) : (x < 0)%R → (1 < Rpower (1 / 2) x)%R.
Proof.
  intros Hx.
  assert (ln (1 / 2) < 0)%R as Hln.
  { rewrite <- ln_1. apply ln_increasing; lra. }
  unfold Rpower. apply (Rle_lt_trans _ (exp 0)); [rewrite exp_0; lra|].
  apply exp_increasing. nra.
Qed.

(** X26: [Label.decay] does nothing without a half-life and raises
    [ZeroDivisionError] on a half-life of zero; otherwise it multiplies the
    mass by [0.5^(dt / half_life)] and touches nothing else.  Unlike the two
    other decay functions it does not clamp [dt]: for a positive half-life
    and a positive mass, a positive [dt] shrinks the mass and a negative
    [dt] makes it grow.  It never looks at [owned_by]. *)
Theorem Label_decay_cases lb dt :
  (label_half_life lb = None → Label_decay lb dt = Returns lb) ∧
  (label_half_life lb = Some 0%R →
   Label_decay lb dt = Raises DecayZeroDivisionError) ∧
  (∀ hl, label_half_life lb = Some hl → hl ≠ 0%R →
     ∃ lb', Label_decay lb dt = Returns lb' ∧
            label_mass lb' = (label_mass lb * Rpower (1 / 2) (dt / hl))%R ∧
            label_id lb' = label_id lb ∧
            label_half_life lb' = label_half_life lb ∧
            label_owned_by lb' = label_owned_by lb ∧
            label_age lb' = label_age lb ∧
            ((0 < hl)%R → (0 < label_mass lb)%R →
             ((0 < dt)%R → (label_mass lb' < label_mass lb)%R) ∧
             ((dt < 0)%R → (label_mass lb < label_mass lb')%R))).
Proof.
  unfold Label_decay. split; [|split].
  - by intros ->.
  - intros ->. by destruct (Req_dec_T 0 0).
  - intros hl -> Hhl. destruct (Req_dec_T hl 0); [done|].
    eexists. split; [done|]. simpl. repeat (split; [done|]).
    intros Hpos Hmass. split; intros Hdt.
    + pose proof (Rpower_half_lt_1 (dt / hl) (Rdiv_lt_0_compat _ _ Hdt Hpos)).
      nra.
    + assert (dt / hl < 0)%R as Hneg.
      { unfold Rdiv. pose proof (Rinv_0_lt_compat hl Hpos). nra. }
      pose proof (Rpower_half_gt_1 _ Hneg). nra.
Qed.

(** X26 at work: an owned label of mass [8] and half-life [8] still
    decays. *)
Lemma Label_decay_cases_witness :
  ∃ lb', Label_decay (mkLabel "L1" 8 (Some 8%R) (Some "percell_A"%string) 0) 8
         = Returns lb' ∧
         (label_mass lb' < 8)%R.
Proof.
  destruct (proj2 (proj2 (Label_decay_cases
              (mkLabel "L1" 8 (Some 8%R) (Some "percell_A"%string) 0) 8))
              8%R eq_refl) as (lb' & Hret & _ & _ & _ & _ & _ & Hsign).
  - lra.
  - exists lb'. split; [exact Hret|].
    apply Hsign; simpl; lra.
Defined.

(** * The world loop *)

Lemma apply_tick_wf lc t :
  Forall wf_emit (queued_intents lc) →
  ∃ lc', apply_tick lc t = (lc', None) ∧ intent_queue lc' = [] ∧
         _grid_summary_cache lc' = None ∧
         ∀ c l, field_value lc' c l
                = merge_at c l (queued_intents lc) (field_value lc c l).
Proof.
  intros Hwf. unfold apply_tick.
  destruct (apply_intents_wf lc _ Hwf) as (lc1 & -> & _ & _ & Hf).
  eexists. split; [done|]. split; [done|]. split; [done|]. exact Hf.
Qed.

Lemma World_tick_step w cell_intents :
  intent_queue (world_label_center w) = [] →
  Forall wf_emit cell_intents →
  ∃ w', World_tick w cell_intents = (w', None) ∧
        tick_count w' = (tick_count w + 1)%Z ∧
        intent_queue (world_label_center w') = [] ∧
        ∀ c l, field_value (world_label_center w') c l
               = merge_at c l
                   (match cell_intents with
                    | [] => [bootstrap_intent]
                    | _ :: _ => cell_intents
                    end)
                   (field_value (world_label_center w) c l).
Proof.
  intros Hq Hwf. unfold World_tick.
  set (submitted := match cell_intents with
                    | [] => [bootstrap_intent] | _ :: _ => cell_intents end).
  assert (Forall wf_emit submitted) as Hsub.
  { subst submitted. destruct cell_intents; [|done].
    constructor; [|constructor]. intros _. split; by eexists. }
  set (lc1 := enqueue_intents _ submitted _ _).
  assert (queued_intents lc1 = submitted) as Hqueued.
  { subst lc1. rewrite queued_intents_enqueue. unfold queued_intents.
    by rewrite Hq. }
  assert (∀ c l, field_value lc1 c l = field_value (world_label_center w) c l)
    as Hfield.
  { intros c l. subst lc1. unfold field_value, enqueue_intents.
    by destruct submitted. }
  destruct (apply_tick_wf lc1 (Some (tick_count w))) as (lc2 & -> & Hq2 & _ & Hf2).
  { by rewrite Hqueued. }
  eexists. split; [done|]. simpl. split; [done|]. split; [done|].
  intros c l. by rewrite Hf2, Hqueued, Hfield.
Qed.

(** X19: when the queue of the store is empty and the cell master's
    intents are of the documented shape, [World.tick] returns normally,
    advances [tick_count] by one, leaves the queue empty again with the
    summary cache dropped, and merges into the field exactly the intents of
    the cell master, or the single bootstrap intent when the cell master left
    none. *)
Theorem World_tick_commits w cell_intents :
  intent_queue (world_label_center w) = [] →
  Forall wf_emit cell_intents →
  ∃ w', World_tick w cell_intents = (w', None) ∧
        tick_count w' = (tick_count w + 1)%Z ∧
        intent_queue (world_label_center w') = [] ∧
        _grid_summary_cache (world_label_center w') = None ∧
        ∀ c l, field_value (world_label_center w') c l
               = merge_at c l
                   (match cell_intents with
                    | [] => [bootstrap_intent]
                    | _ :: _ => cell_intents
                    end)
                   (field_value (world_label_center w) c l).
Proof.
  intros Hq Hwf.
  destruct (World_tick_step w cell_intents Hq Hwf)
    as (w' & Hret & Ht & Hq' & Hf).
  exists w'. split; [exact Hret|]. split; [exact Ht|]. split; [exact Hq'|].
  split; [|exact Hf].
  unfold World_tick, apply_tick in Hret.
  destruct (apply_intents _ _) as [lc1 [x|]]; [done|].
  by injection Hret as <-.
Qed.

(** X19 at work: one tick of a new world with one intent of the cell
    master. *)
Lemma World_tick_commits_witness :
  ∃ w', World_tick (mkWorld new_center 0) [emit_label (0, 0)%Z "PMHC" 1]
        = (w', None) ∧
        tick_count w' = 1%Z ∧
        field_value (world_label_center w') (0, 0)%Z "PMHC" = Some (0 + 1)%Q.
Proof.
  destruct (World_tick_commits (mkWorld new_center 0)
              [emit_label (0, 0)%Z "PMHC" 1]) as (w' & Hret & Ht & _ & _ & Hf).
  - reflexivity.
  - constructor; [|constructor]. intros _. split; eexists; reflexivity.
  - exists w'. split; [exact Hret|]. split; [exact Ht|].
    rewrite Hf. vm_compute. reflexivity.
Defined.

(** X20: a world whose cell master never leaves an intent still writes:
    every tick adds [1.0] of [bootstrap] at [(0, 0)].  After [n] idle ticks
    [tick_count] has advanced by [n], the queue is empty, the bootstrap
    value has been incremented [n] times, and no other key has changed. *)
Theorem idle_world_accumulates n w :
  intent_queue (world_label_center w) = [] →
  tick_count (idle_ticks n w) = (tick_count w + Z.of_nat n)%Z ∧
  intent_queue (world_label_center (idle_ticks n w)) = [] ∧
  field_value (world_label_center (idle_ticks n w)) (0, 0)%Z "bootstrap"
  = Nat.iter n (λ v, Some (default 0%Q v + 1)%Q)
      (field_value (world_label_center w) (0, 0)%Z "bootstrap") ∧
  ∀ c l, (c, l) ≠ ((0, 0)%Z, "bootstrap"%string) →
         field_value (world_label_center (idle_ticks n w)) c l
         = field_value (world_label_center w) c l.
Proof.
  intros Hq. induction n as [|n (Ht & Hqn & Hb & Hothers)].
  - simpl. split; [lia|]. done.
  - destruct (World_tick_step (idle_ticks n w) [] Hqn ltac:(constructor))
      as (w' & Hret & Ht' & Hq' & Hf').
    change (idle_ticks (S n) w) with (fst (World_tick (idle_ticks n w) [])).
    rewrite Hret. simpl fst.
    split; [lia|]. split; [done|]. split.
    + rewrite Hf'. unfold merge_at. cbn [foldl].
      rewrite decide_True by (by repeat split).
      cbn [Nat.iter nat_rect]. by rewrite Hb.
    + intros c l Hne. rewrite Hf'. unfold merge_at. cbn [foldl].
      rewrite decide_False; [by apply Hothers|].
      intros (_ & Hc & Hl). simpl in Hc, Hl. congruence.
Qed.

(** X20 at work: three idle ticks of a new world. *)
Lemma idle_world_accumulates_witness :
  tick_count (idle_ticks 3 (mkWorld new_center 0)) = 3%Z ∧
  field_value (world_label_center (idle_ticks 3 (mkWorld new_center 0)))
    (0, 0)%Z "bootstrap" = Some (0 + 1 + 1 + 1)%Q.
Proof.
  destruct (idle_world_accumulates 3 (mkWorld new_center 0) eq_refl)
    as (Ht & _ & Hb & _).
  split; [exact Ht | exact Hb].
Defined.
